(** * newredis: the basic connection wrapper and the connection pool

    A shallow embedding of [lib/basic.js] (promise wrappers around a
    hiredis socket) and [lib/pool.js] (RedisConnectionPool and
    PoolConnection), followed by the properties of the design document
    that concern them.

    JavaScript runs one job at a time.  Synchronous code is embedded
    as state transformers; an [async] function is cut at its [await]s,
    and each piece between two suspension points is one transformer.
    Node's [EventEmitter.emit] calls its listeners synchronously, so
    emitting "release" runs [queueHandler] inside the emitter's caller. *)

From stdpp Require Import base option list strings.

(** ** lib/basic.js *)

Module Basic.

(** The three states of a JavaScript promise; [res] and [rej] act only
    on a pending one. *)
Inductive Promise :=
  | Pending
  | Fulfilled (r : string)
  | RejectedWith (e : string).

(** The arguments of a node-style completion callback:
    [callback(e)] or [callback(null, r)]. *)
Inductive CbArgs :=
  | CbErr (e : string)
  | CbOk (r : string).

(** The hiredis socket as far as [executeCb] touches it, the promises
    made by [execute] (the n-th call owns the n-th promise) and the log
    of callback invocations.  A once-listener is named by the call that
    registered it: [k] in [reply_once] is the closure [f1] of call [k],
    [k] in [error_once] its closure [f2]. *)
Record World := mkWorld {
  destroyed : bool;
  written : list (list string);
  reply_once : list nat;
  error_once : list nat;
  promises : list Promise;
  invoked : list (nat * CbArgs)
}.

Definition settle_promise (k : nat) (p : Promise) (ps : list Promise) : list Promise :=
  match ps !! k with
  | Some Pending => <[k := p]> ps
  | _ => ps
  end.

(** [(e, r) => e ? rej(e) : res(r)], the callback [execute] passes on. *)
Definition callback (k : nat) (a : CbArgs) (w : World) : World :=
  {| destroyed := destroyed w; written := written w;
     reply_once := reply_once w; error_once := error_once w;
     promises := match a with
                 | CbErr e => settle_promise k (RejectedWith e) (promises w)
                 | CbOk r => settle_promise k (Fulfilled r) (promises w)
                 end;
     invoked := invoked w ++ [(k, a)] |}.

(** [conn.removeListener(name, f)] removes one registration of [f]. *)
Fixpoint removeListener (k : nat) (ls : list nat) : list nat :=
  match ls with
  | [] => []
  | x :: ls' => if decide (x = k) then ls' else x :: removeListener k ls'
  end.

Definition executeCb (k : nat) (commandArray : list string) (w : World) : World :=
  let w1 := if destroyed w then callback k (CbErr "Socket Destroyed"%string) w else w in
  {| destroyed := destroyed w1;
     written := written w1 ++ [commandArray];
     reply_once := reply_once w1 ++ [k];
     error_once := error_once w1 ++ [k];
     promises := promises w1;
     invoked := invoked w1 |}.

(** [execute] makes the promise of call [k = length promises] and runs
    [executeCb] inside the promise executor. *)
Definition execute (commandArray : list string) (w : World) : World :=
  let k := length (promises w) in
  executeCb k commandArray
    {| destroyed := destroyed w; written := written w;
       reply_once := reply_once w; error_once := error_once w;
       promises := promises w ++ [Pending];
       invoked := invoked w |}.

(** [f1 = r => conn.removeListener("error", f2) && callback(null, r)];
    being registered with [once] it is taken off "reply" before it runs.
    [removeListener] returns the emitter, which is truthy. *)
Definition f1 (k : nat) (r : string) (w : World) : World :=
  callback k (CbOk r)
    {| destroyed := destroyed w; written := written w;
       reply_once := removeListener k (reply_once w);
       error_once := removeListener k (error_once w);
       promises := promises w; invoked := invoked w |}.

Definition f2 (k : nat) (e : string) (w : World) : World :=
  callback k (CbErr e)
    {| destroyed := destroyed w; written := written w;
       reply_once := removeListener k (reply_once w);
       error_once := removeListener k (error_once w);
       promises := promises w; invoked := invoked w |}.

(** [conn.emit("reply", r)]: every listener registered when the emit
    starts is called, in registration order. *)
Definition emit_reply (r : string) (w : World) : World :=
  foldl (λ w' k, f1 k r w') w (reply_once w).

Definition emit_error (e : string) (w : World) : World :=
  foldl (λ w' k, f2 k e w') w (error_once w).

(** The invocations of the callback of call [k], oldest first. *)
Definition invocations (k : nat) (w : World) : list CbArgs :=
  omap (λ p, if decide (p.1 = k) then Some p.2 else None) (invoked w).

(** Listeners and log entries belong to calls that were made. *)
Definition wf (w : World) : Prop :=
  Forall (λ k, k < length (promises w)) (reply_once w) ∧
  Forall (λ k, k < length (promises w)) (error_once w) ∧
  Forall (λ p, p.1 < length (promises w)) (invoked w).

Definition fresh_socket (d : bool) : World :=
  mkWorld d [] [] [] [] [].

End Basic.

(** ** lib/pool.js *)

Module Pool.

(** An error value, as far as [e.constructor === ConnectionError] can
    tell: a [ConnectionError] or an error of some other class. *)
Inductive JsError :=
  | ConnectionError (message : string)
  | OtherError (name message : string).

Definition is_ConnectionError (e : JsError) : bool :=
  match e with ConnectionError _ => true | OtherError _ _ => false end.

(** A PoolConnection object.  [conn] counts the RedisConnection objects
    made for it so far ([0]: [this.conn] is still undefined); the
    current one is the last. *)
Record PoolConnection := mkPoolConnection {
  idx : nat;
  broken : bool;
  free : bool;
  conn : nat
}.

Definition set_free (b : bool) (x : PoolConnection) : PoolConnection :=
  {| idx := idx x; broken := broken x; free := b; conn := conn x |}.

Definition set_broken (b : bool) (x : PoolConnection) : PoolConnection :=
  {| idx := idx x; broken := b; free := free x; conn := conn x |}.

Definition set_conn (x : PoolConnection) : PoolConnection :=
  {| idx := idx x; broken := broken x; free := free x; conn := S (conn x) |}.

(** One call of [getConnection()], named by its number, and where it
    stands.  The first five constructors are states of the async call
    and of the promise made by [waitForRelease]; the last four record
    what became of the call and of the connection it returned.
    [Holding], [Lost] and [Released] differ only for the bookkeeping of
    who holds a connection: the caller has the same object in hand in
    all three, and no pool code reads the difference. *)
Inductive Task :=
  | AwaitInit (i : nat)     (* getNewConnection, at [await conn.initialize()] *)
  | AwaitRelease            (* getOldConnection, at [await this.waitForRelease()], promise pending *)
  | Resolved (i : nat)      (* that promise fulfilled with connections[i], continuation not yet run *)
  | Rejected (e : JsError)  (* that promise rejected, continuation not yet run *)
  | AwaitRepair (i : nat)   (* getOldConnection, at [await conn.repair()] *)
  | Holding (i : nat)       (* returned connections[i]; neither released nor broken since *)
  | Lost (i : nat)          (* returned connections[i]; its link broke since *)
  | Released (i : nat)      (* returned connections[i]; the caller called release() *)
  | Failed (e : JsError).   (* getConnection() rejected with e *)

(** What an observer of the pool sees, in order. *)
Inductive Obs :=
  | Emit (i : nat)               (* emitter.emit("release", i) *)
  | Push (c : nat)               (* queue.push of the entry of call c *)
  | Res (c : nat) (i : nat)      (* entry.res(connections[i]) *)
  | Rej (c : nat) (e : JsError). (* entry.rej(e) *)

(** The pool object, the calls in flight and the observations so far.
    A queue entry [{ res, rej }] is named by the call whose promise it
    settles. *)
Record State := mkState {
  queue : list nat;
  connections : list PoolConnection;
  size : nat;
  connectionLimit : nat;
  tasks : list Task;
  trace : list Obs
}.

Definition upd_queue (f : list nat → list nat) (s : State) : State :=
  mkState (f (queue s)) (connections s) (size s) (connectionLimit s) (tasks s) (trace s).
Definition upd_connections (f : list PoolConnection → list PoolConnection) (s : State) : State :=
  mkState (queue s) (f (connections s)) (size s) (connectionLimit s) (tasks s) (trace s).
Definition upd_size (f : nat → nat) (s : State) : State :=
  mkState (queue s) (connections s) (f (size s)) (connectionLimit s) (tasks s) (trace s).
Definition upd_tasks (f : list Task → list Task) (s : State) : State :=
  mkState (queue s) (connections s) (size s) (connectionLimit s) (f (tasks s)) (trace s).
Definition upd_trace (f : list Obs → list Obs) (s : State) : State :=
  mkState (queue s) (connections s) (size s) (connectionLimit s) (tasks s) (f (trace s)).

(** [new RedisConnectionPool(config)]: [connectionLimit] defaults to 10. *)
Definition RedisConnectionPool (config : option nat) : State :=
  mkState [] [] 0 (default 10 config) [] [].

(** *** Synchronous code: state, exceptions, and being stuck

    [None] stands for the TypeError of reading a property of
    [undefined]; it needs an index outside the pool, which no
    PoolConnection carries. *)
Inductive Outcome (A : Type) :=
  | Return (a : A)
  | Throw (e : JsError).
Arguments Return {A} a.
Arguments Throw {A} e.

Definition M (A : Type) : Type := State → option (Outcome A * State).

#[global] Instance M_ret : MRet M := λ A a s, Some (Return a, s).
#[global] Instance M_bind : MBind M := λ A B f m s,
  match m s with
  | Some (Return a, s') => f a s'
  | Some (Throw e, s') => Some (Throw e, s')
  | None => None
  end.

Definition throw {A} (e : JsError) : M A := λ s, Some (Throw e, s).
Definition stuck {A} : M A := λ _, None.
Definition gets {A} (f : State → A) : M A := λ s, Some (Return (f s), s).
Definition modify (f : State → State) : M unit := λ s, Some (Return tt, f s).
Definition log (o : Obs) : M unit := modify (upd_trace (λ t, t ++ [o])).

(** Settling the promise of call [c]: only a pending promise changes. *)
Definition settle (c : nat) (t : Task) (ts : list Task) : list Task :=
  match ts !! c with
  | Some AwaitRelease => <[c := t]> ts
  | _ => ts
  end.

Definition res (c i : nat) : M unit :=
  modify (upd_tasks (settle c (Resolved i)));; log (Res c i).

Definition rej (c : nat) (e : JsError) : M unit :=
  modify (upd_tasks (settle c (Rejected e)));; log (Rej c e).

(** [x => x.free || x.broken] *)
Definition avail (x : PoolConnection) : bool := free x || broken x.

Definition find_avail (cs : list PoolConnection) : option (nat * PoolConnection) :=
  list_find (λ x, Is_true (avail x)) cs.

(** [queueHandler(idx)], lines 33-46. *)
Definition queueHandler (i : nat) : M unit :=
  cs ← gets connections;
  match cs !! i with
  | None => stuck
  | Some conn =>
      if negb (free conn) && negb (broken conn) then mret tt
      else
        q ← gets queue;
        match q with
        | [] => mret tt
        | w :: q' =>
            modify (upd_connections (alter (set_free false) i));;
            modify (upd_queue (λ _, q'));;
            res w i
        end
  end.

Definition emit (i : nat) : M unit := log (Emit i);; queueHandler i.

(** Bookkeeping: a broken link ends the hold of whoever was given the
    connection. *)
Definition lose (i : nat) (t : Task) : Task :=
  match t with
  | Holding j => if decide (j = i) then Lost j else t
  | _ => t
  end.

(** [this.broken = true]; the second line is the bookkeeping that goes
    with it. *)
Definition mark_broken (i : nat) : M unit :=
  modify (upd_connections (alter (set_broken true) i));;
  modify (upd_tasks (fmap (lose i))).

(** [handleServerBroken()], lines 209-213. *)
Definition handleServerBroken (i : nat) : M unit :=
  mark_broken i;; emit i.

(** [release()], lines 231-235. *)
Definition release (i : nat) : M unit :=
  modify (upd_connections (alter (set_free true) i));; emit i.

(** [handleExecuteError(e)], lines 241-247. *)
Definition handleExecuteError (i : nat) (e : JsError) : M unit :=
  (if is_ConnectionError e then mark_broken i;; emit i else mret tt);;
  throw e.

(** [try { ... } catch (e) { h(e) }] around an awaited promise that
    settled with [r]. *)
Definition try_await {A} (r : JsError + A) (h : JsError → M A) : M A :=
  match r with
  | inr a => mret a
  | inl e => h e
  end.

Inductive Value :=
  | Undefined
  | Reply (r : string).

(** [execute(command)], lines 219-226, from the moment
    [this.conn.execute(command)] settles with [r].  Should the handler
    return, the function falls off its end and yields [undefined]. *)
Definition execute (i : nat) (r : JsError + string) : M Value :=
  try_await (sum_map id Reply r) (λ e, handleExecuteError i e;; mret Undefined).

(** [initialize()], lines 174-182, up to its [await] ... *)
Definition initialize_start (i : nat) : M unit :=
  modify (upd_connections (alter set_conn i)).

(** ... and from the moment [this.conn.initialize()] settles. *)
Definition initialize_settled (i : nat) (r : option JsError) : M unit :=
  try_await (from_option inl (inr tt) r) (λ e, handleExecuteError i e).

(** [waitForRelease()], lines 115-117, for call [c]. *)
Definition waitForRelease (c : nat) : M unit :=
  modify (upd_queue (λ q, q ++ [c]));; log (Push c).

(** [getOldConnection()] from line 101 on, with [conn = connections[k]]:
    either to the [return] or to the [await] inside [repair()]. *)
Definition getOldConnection_got (k : nat) : M Task :=
  cs ← gets connections;
  match cs !! k with
  | None => stuck
  | Some conn =>
      modify (upd_connections (alter (set_free false) k));;
      if broken conn then
        modify (upd_connections (alter (set_broken false) k));;
        initialize_start k;;
        mret (AwaitRepair k)
      else mret (Holding k)
  end.

(** [getOldConnection()], lines 94-110, to its first suspension. *)
Definition getOldConnection (c : nat) : M Task :=
  cs ← gets connections;
  match find_avail cs with
  | None => waitForRelease c;; mret AwaitRelease
  | Some (k, _) => getOldConnection_got k
  end.

(** [getNewConnection()], lines 67-81, to its [await]. *)
Definition getNewConnection : M Task :=
  cs ← gets connections;
  let connIdx := length cs in
  modify (upd_connections (λ cs, cs ++ [mkPoolConnection connIdx false false 0]));;
  initialize_start connIdx;;
  mret (AwaitInit connIdx).

(** [getConnection()], lines 52-61, to its first suspension. *)
Definition getConnection (c : nat) : M Task :=
  cs ← gets connections;
  sz ← gets size;
  lim ← gets connectionLimit;
  if bool_decide (find_avail cs = None) && bool_decide (sz < lim) then
    modify (upd_size S);; getNewConnection
  else getOldConnection c.

(** [emptyQueue()], lines 145-150: [q] is what [this.queue] holds. *)
Fixpoint emptyQueue_loop (q : list nat) : M unit :=
  match q with
  | [] => mret tt
  | w :: q' =>
      modify (upd_queue (λ _, q'));;
      rej w (ConnectionError "No live TCP connection"%string);;
      emptyQueue_loop q'
  end.

Definition emptyQueue : M unit := q ← gets queue; emptyQueue_loop q.

(** *** The event loop

    What can happen to a pool, one job at a time. *)
Inductive Event :=
  | GetConnection                              (* somebody calls pool.getConnection() *)
  | Settle (c : nat) (r : option JsError)      (* the conn.initialize() call c awaits settles *)
  | Resume (c : nat)                           (* the continuation of a settled wait runs *)
  | Release (c : nat)                          (* the caller of call c calls release() on what it got *)
  | Execute (c : nat) (r : JsError + string)   (* an execute() of that caller settles *)
  | ServerBroken (i : nat)                     (* the end event of connections[i] *)
  | EmptyQueue.                                (* somebody calls pool.emptyQueue() *)

(** The connection the caller of call [c] has in hand, if any. *)
Definition in_hand (t : Task) : option nat :=
  match t with
  | Holding i | Lost i | Released i => Some i
  | _ => None
  end.

(** Running a piece of an async call: its result is where call [c]
    stands afterwards; an exception rejects the call. *)
Definition as_task (m : M Task) (s : State) : option (Task * State) :=
  match m s with
  | Some (Return t, s') => Some (t, s')
  | Some (Throw e, s') => Some (Failed e, s')
  | None => None
  end.

(** Running synchronous code called from outside the pool, whose
    result or exception goes to that caller. *)
Definition effect {A} (m : M A) (s : State) : option State :=
  match m s with
  | Some (_, s') => Some s'
  | None => None
  end.

(** One job of the event loop.  [None]: the event cannot happen in
    state [s] (there is no such suspended call, or the caller has no
    connection in hand), or the code is stuck.  [Release] also does
    the bookkeeping of the caller's hold. *)
Definition step (s : State) (ev : Event) : option State :=
  match ev with
  | GetConnection =>
      '(t, s') ← as_task (getConnection (length (tasks s))) s;
      Some (upd_tasks (λ ts, ts ++ [t]) s')
  | Settle c r =>
      match tasks s !! c with
      | Some (AwaitInit i) | Some (AwaitRepair i) =>
          '(t, s') ← as_task (initialize_settled i r;; mret (Holding i)) s;
          Some (upd_tasks (<[c := t]>) s')
      | _ => None
      end
  | Resume c =>
      match tasks s !! c with
      | Some (Resolved i) =>
          '(t, s') ← as_task (getOldConnection_got i) s;
          Some (upd_tasks (<[c := t]>) s')
      | Some (Rejected e) => Some (upd_tasks (<[c := Failed e]>) s)
      | _ => None
      end
  | Release c =>
      t ← tasks s !! c;
      i ← in_hand t;
      effect (release i) (upd_tasks (<[c := Released i]>) s)
  | Execute c r =>
      t ← tasks s !! c;
      i ← in_hand t;
      effect (execute i r) s
  | ServerBroken i => effect (handleServerBroken i) s
  | EmptyQueue => effect emptyQueue s
  end.

Fixpoint run (s : State) (evs : list Event) : option State :=
  match evs with
  | [] => Some s
  | ev :: evs' => s' ← step s ev; run s' evs'
  end.

End Pool.

(** ** What the properties are stated with *)

Module PoolSpec.
Import Pool.

(** The connection a call refers to, whatever its stage. *)
Definition slot_of (t : Task) : option nat :=
  match t with
  | AwaitInit i | Resolved i | AwaitRepair i
  | Holding i | Lost i | Released i => Some i
  | AwaitRelease | Rejected _ | Failed _ => None
  end.

(** The calls whose entry was pushed, served ([res] or [rej]) and
    fulfilled ([res]), each in the order it happened. *)
Definition pushes (tr : list Obs) : list nat :=
  omap (λ o, match o with Push c => Some c | _ => None end) tr.
Definition served (tr : list Obs) : list nat :=
  omap (λ o, match o with Res c _ | Rej c _ => Some c | _ => None end) tr.
Definition fulfilled (tr : list Obs) : list nat :=
  omap (λ o, match o with Res c _ => Some c | _ => None end) tr.

(** [a] occurs in [l] strictly before [b]. *)
Definition before {A} (l : list A) (a b : A) : Prop :=
  ∃ i j, i < j ∧ l !! i = Some a ∧ l !! j = Some b.

(** The state [queueHandler(i)] leaves when it serves the entry [w]
    at the head of the queue, [q'] being the rest of the queue. *)
Definition handoff (i w : nat) (q' : list nat) (s : State) : State :=
  mkState q' (alter (set_free false) i (connections s)) (size s)
    (connectionLimit s) (settle w (Resolved i) (tasks s))
    (trace s ++ [Res w i]).

(** The state [queueHandler(i)] leaves. *)
Definition notified (i : nat) (s : State) : State :=
  match connections s !! i, queue s with
  | Some x, w :: q' =>
      if negb (free x) && negb (broken x) then s else handoff i w q' s
  | _, _ => s
  end.

(** The state [emit("release", i)] leaves. *)
Definition emitted (i : nat) (s : State) : State :=
  notified i (upd_trace (λ t, t ++ [Emit i]) s).

(** The state [this.broken = true] leaves. *)
Definition broke (i : nat) (s : State) : State :=
  upd_tasks (fmap (lose i)) (upd_connections (alter (set_broken true) i) s).

(** The state [getOldConnection()] leaves once it has
    [connections[k]], and where the call then stands. *)
Definition got (k : nat) (s : State) : State :=
  match connections s !! k with
  | Some x =>
      if broken x then
        upd_connections (alter set_conn k)
          (upd_connections (alter (set_broken false) k)
             (upd_connections (alter (set_free false) k) s))
      else upd_connections (alter (set_free false) k) s
  | None => s
  end.
Definition got_task (k : nat) (s : State) : Task :=
  match connections s !! k with
  | Some x => if broken x then AwaitRepair k else Holding k
  | None => Failed (OtherError "TypeError" "")
  end.

(** The PoolConnection [getNewConnection()] pushes, once its
    [initialize()] has made the RedisConnection. *)
Definition newly (n : nat) : PoolConnection := mkPoolConnection n false false 1.

(** The state [emptyQueue()] leaves. *)
Definition rejected_all (s : State) : State :=
  mkState [] (connections s) (size s) (connectionLimit s)
    (foldl (λ ts w, settle w (Rejected (ConnectionError "No live TCP connection")) ts)
       (tasks s) (queue s))
    (trace s ++ ((λ w, Rej w (ConnectionError "No live TCP connection")) <$> queue s)).

(** What holds of every state a pool can reach, but for the [free]
    flags. *)
Record wf_core (s : State) : Prop := mk_wf_core {
  wf_size : size s = length (connections s);
  wf_limit : size s ≤ connectionLimit s;
  wf_idx : ∀ k x, connections s !! k = Some x → idx x = k;
  wf_slots : ∀ c t i, tasks s !! c = Some t → slot_of t = Some i →
             i < length (connections s);
  wf_queue : ∀ w, w ∈ queue s → tasks s !! w = Some AwaitRelease;
  wf_served : pushes (trace s) = served (trace s) ++ queue s;
  wf_nodup : NoDup (pushes (trace s));
  wf_pushed : ∀ c, c ∈ pushes (trace s) → c < length (tasks s)
}.

(** While somebody waits no connection is marked free, save perhaps
    connection [i]. *)
Definition quiet_but (i : option nat) (s : State) : Prop :=
  queue s ≠ [] →
  ∀ j x, connections s !! j = Some x → Some j ≠ i → free x = false.

Definition wf (s : State) : Prop := wf_core s ∧ quiet_but None s.

(** The bookkeeping of who holds what, forgotten: what is left of a
    call is what the program itself has of it. *)
Definition forget (t : Task) : Task :=
  match t with
  | Lost i | Released i => Holding i
  | _ => t
  end.

Definition forget_state (s : State) : State := upd_tasks (fmap forget) s.

(** Two runs of a piece of code from states that differ in the
    bookkeeping only end alike, in states that differ in the
    bookkeeping only. *)
Definition inert {A} (m : M A) : Prop :=
  ∀ s1 s2, forget_state s1 = forget_state s2 →
    match m s1, m s2 with
    | Some (o1, s1'), Some (o2, s2') => o1 = o2 ∧ forget_state s1' = forget_state s2'
    | None, None => True
    | _, _ => False
    end.

(** Call [c] is suspended on the [initialize()] of connection [i]. *)
Definition awaiting (s : State) (c i : nat) : Prop :=
  tasks s !! c = Some (AwaitInit i) ∨ tasks s !! c = Some (AwaitRepair i).

(** An event can happen in state [s]. *)
Definition enabled (s : State) (ev : Event) : Prop :=
  match ev with
  | GetConnection | EmptyQueue => True
  | Settle c _ => ∃ i, awaiting s c i
  | Resume c => ∃ t, tasks s !! c = Some t ∧
                     match t with Resolved _ | Rejected _ => True | _ => False end
  | Release c | Execute c _ => ∃ t i, tasks s !! c = Some t ∧ in_hand t = Some i
  | ServerBroken i => i < length (connections s)
  end.

(** The steps of a well-formed pool, case by case. *)
Inductive transition (s : State) : Event → State → Prop :=
  | t_old k x :
      find_avail (connections s) = Some (k, x) →
      transition s GetConnection
        (upd_tasks (λ ts, ts ++ [got_task k s]) (got k s))
  | t_new :
      find_avail (connections s) = None → size s < connectionLimit s →
      transition s GetConnection
        (mkState (queue s) (connections s ++ [newly (length (connections s))])
           (S (size s)) (connectionLimit s)
           (tasks s ++ [AwaitInit (length (connections s))]) (trace s))
  | t_wait :
      find_avail (connections s) = None → ¬ size s < connectionLimit s →
      transition s GetConnection
        (mkState (queue s ++ [length (tasks s)]) (connections s) (size s)
           (connectionLimit s) (tasks s ++ [AwaitRelease])
           (trace s ++ [Push (length (tasks s))]))
  | t_settle_ok c i :
      awaiting s c i →
      transition s (Settle c None) (upd_tasks (<[c := Holding i]>) s)
  | t_settle_broken c i e :
      awaiting s c i → i < length (connections s) →
      is_ConnectionError e = true →
      transition s (Settle c (Some e))
        (upd_tasks (<[c := Failed e]>) (emitted i (broke i s)))
  | t_settle_other c i e :
      awaiting s c i → i < length (connections s) →
      is_ConnectionError e = false →
      transition s (Settle c (Some e)) (upd_tasks (<[c := Failed e]>) s)
  | t_resume c i :
      tasks s !! c = Some (Resolved i) → i < length (connections s) →
      transition s (Resume c) (upd_tasks (<[c := got_task i s]>) (got i s))
  | t_resume_rejected c e :
      tasks s !! c = Some (Rejected e) →
      transition s (Resume c) (upd_tasks (<[c := Failed e]>) s)
  | t_release c t i :
      tasks s !! c = Some t → in_hand t = Some i →
      i < length (connections s) →
      transition s (Release c)
        (emitted i (upd_connections (alter (set_free true) i)
                      (upd_tasks (<[c := Released i]>) s)))
  | t_execute_broken c t i e :
      tasks s !! c = Some t → in_hand t = Some i →
      i < length (connections s) → is_ConnectionError e = true →
      transition s (Execute c (inl e)) (emitted i (broke i s))
  | t_execute_other c t i r :
      tasks s !! c = Some t → in_hand t = Some i →
      i < length (connections s) →
      match r with inl e => is_ConnectionError e = false | inr _ => True end →
      transition s (Execute c r) s
  | t_server_broken i :
      i < length (connections s) →
      transition s (ServerBroken i) (emitted i (broke i s))
  | t_empty : transition s EmptyQueue (rejected_all s).



(** The error [emptyQueue()] rejects the waiting calls with. *)
Definition no_live_connection : JsError :=
  ConnectionError "No live TCP connection".

(** A call that is under way or has been given a connection. *)
Definition not_failed (t : Task) : Prop :=
  match t with
  | Rejected _ | Failed _ => False
  | _ => True
  end.

(** C3 as the design document words it: once [emptyQueue()] has run,
    no later call of [getConnection()] is given a connection. *)
Definition teardown_as_stated : Prop :=
  ∀ config evs1 evs2 s1 s2,
    run (RedisConnectionPool config) evs1 = Some s1 →
    run s1 (EmptyQueue :: evs2) = Some s2 →
    ∀ c i, length (tasks s1) ≤ c → tasks s2 !! c ≠ Some (Holding i).

(** C4 as the design document words it, for its own example of a
    second [release()] by the same caller: no waiting call is thereby
    given a connection that another call holds. *)
Definition release_misuse_as_stated : Prop :=
  ∀ config evs s s' c i,
    run (RedisConnectionPool config) evs = Some s →
    tasks s !! c = Some (Released i) →
    step s (Release c) = Some s' →
    ∀ h w, tasks s !! h = Some (Holding i) →
           tasks s' !! w = Some (Resolved i) →
           tasks s !! w = Some (Resolved i).

(** No call refers to connection [i]. *)
Definition unreferenced (ts : list Task) (i : nat) : Prop :=
  ∀ c t, ts !! c = Some t → slot_of t ≠ Some i.

(** Connection [i] is neither free nor broken, and no call refers to
    it: nobody has it and no scan finds it. *)
Definition abandoned (i : nat) (s : State) : Prop :=
  (∃ x, connections s !! i = Some x ∧ free x = false ∧ broken x = false) ∧
  unreferenced (tasks s) i.

(** C9 as the design document words it: after a first initialization
    that failed with an error other than a ConnectionError, no call
    ever refers to the new connection again, whatever happens. *)
Definition capacity_loss_as_stated : Prop :=
  ∀ config evs0 s e evs s',
    run (RedisConnectionPool config) evs0 = Some s →
    find_avail (connections s) = None → size s < connectionLimit s →
    is_ConnectionError e = false →
    run s (GetConnection :: Settle (length (tasks s)) (Some e) :: evs) = Some s' →
    tasks s' !! length (tasks s) = Some (Failed e) ∧
    (∃ x, connections s' !! length (connections s) = Some x ∧
          free x = false ∧ broken x = false) ∧
    S (size s) ≤ size s' ∧
    ∀ c t, tasks s' !! c = Some t → slot_of t ≠ Some (length (connections s)).

End PoolSpec.

(** ** More of lib/basic.js: the socket over time, and createConnection *)

Module BasicSpec.
Import Basic.

(** What happens to a socket: a call of [execute], a "reply" or an
    "error" event, or the socket being destroyed. *)
Inductive SocketEvent :=
  | Exec (commandArray : list string)
  | ReplyEvent (r : string)
  | ErrorEvent (e : string)
  | Destroy.

Definition destroy (w : World) : World :=
  mkWorld true (written w) (reply_once w) (error_once w) (promises w) (invoked w).

Definition socket_step (w : World) (ev : SocketEvent) : World :=
  match ev with
  | Exec commandArray => execute commandArray w
  | ReplyEvent r => emit_reply r w
  | ErrorEvent e => emit_error e w
  | Destroy => destroy w
  end.

Definition socket_run (w : World) (evs : list SocketEvent) : World :=
  foldl socket_step w evs.

(** What holds of a socket used through [execute] only: the two
    listeners of a call are registered and removed together, once,
    and a call whose promise is pending has them registered. *)
Record socket_inv (w : World) : Prop := mk_socket_inv {
  inv_wf : wf w;
  inv_paired : reply_once w = error_once w;
  inv_nodup : NoDup (reply_once w);
  inv_pending : ∀ k, promises w !! k = Some Pending → k ∈ reply_once w
}.

(** The callback of a call that still listens has not been invoked,
    and no callback has been invoked twice. *)
Definition called_once (w : World) : Prop :=
  ∀ k, (k ∈ reply_once w → invocations k w = []) ∧
       length (invocations k w) ≤ 1.

Definition is_Destroy (ev : SocketEvent) : Prop :=
  match ev with Destroy => True | _ => False end.

(** [createConnectionCb] on the socket [hiredis.createConnection]
    returns: whether [f1] still listens for "connect" and [f2] for
    "error", the promise of [createConnection], and the invocations
    of the callback so far ([None]: [callback(null, conn)]). *)
Record Attempt := mkAttempt {
  connect_once : bool;
  connect_error_once : bool;
  connecting : Promise;
  connect_invoked : list (option string)
}.

(** [(e, conn) => e ? rej(e) : res(conn)]; the connection is named
    by the string "conn". *)
Definition connect_callback (a : option string) (t : Attempt) : Attempt :=
  mkAttempt (connect_once t) (connect_error_once t)
    match connecting t, a with
    | Pending, None => Fulfilled "conn"
    | Pending, Some e => RejectedWith e
    | p, _ => p
    end
    (connect_invoked t ++ [a]).

(** [createConnection(port, host)]: both listeners registered. *)
Definition createConnection : Attempt := mkAttempt true true Pending [].

Inductive ConnectEvent :=
  | Connected
  | ConnectFailed (e : string).

(** The socket emits "connect" or "error": a registered once-listener
    is taken off, takes the other listener off and calls back.  An
    event nobody listens for reaches no code of this file. *)
Definition connect_step (t : Attempt) (ev : ConnectEvent) : Attempt :=
  match ev with
  | Connected =>
      if connect_once t
      then connect_callback None (mkAttempt false false (connecting t) (connect_invoked t))
      else t
  | ConnectFailed e =>
      if connect_error_once t
      then connect_callback (Some e) (mkAttempt false false (connecting t) (connect_invoked t))
      else t
  end.

Definition connect_run (t : Attempt) (evs : list ConnectEvent) : Attempt :=
  foldl connect_step t evs.

(** How the promise of [createConnection] settles on a first event. *)
Definition settled_by (ev : ConnectEvent) : Promise :=
  match ev with
  | Connected => Fulfilled "conn"
  | ConnectFailed e => RejectedWith e
  end.

Definition called_with (ev : ConnectEvent) : option string :=
  match ev with
  | Connected => None
  | ConnectFailed e => Some e
  end.

End BasicSpec.

(** ** More of lib/pool.js *)

Module PoolMore.
Import Pool PoolSpec.

(** [inspectPool()], lines 122-124: [{ broken, free }] of every
    connection, in order. *)
Definition inspectPool (s : State) : list (bool * bool) :=
  (λ c, (broken c, free c)) <$> connections s.

(** [backToDefaultDb()], lines 252-258, from the moment
    [this.conn.backToDefaultDb()] settles with [r]. *)
Definition backToDefaultDb (i : nat) (r : JsError + string) : M Value :=
  try_await (sum_map id Reply r) (λ e, handleExecuteError i e;; mret Undefined).

(** While somebody waits the pool cannot grow. *)
Definition full_when_waiting (s : State) : Prop :=
  queue s ≠ [] → connectionLimit s ≤ size s.

(** The calls suspended in [waitForRelease()] are the calls in the
    queue. *)
Definition waiters_queued (s : State) : Prop :=
  ∀ c, tasks s !! c = Some AwaitRelease ↔ c ∈ queue s.

(** [this.conn] of every connection in the pool is set. *)
Definition connected (s : State) : Prop :=
  ∀ k x, connections s !! k = Some x → 1 ≤ conn x.

(** Every [res(conn)] comes right after the notification for that
    connection. *)
Definition answered (tr : list Obs) : Prop :=
  ∀ n w i, tr !! n = Some (Res w i) →
    ∃ m, n = S m ∧ tr !! m = Some (Emit i).




End PoolMore.

(** ** Properties of lib/basic.js *)

Module BasicProps.
Import Basic.

Lemma settle_promise_length k p ps : length (settle_promise k p ps) = length ps.
Proof. unfold settle_promise. repeat case_match; by rewrite ?length_insert. Qed.

Lemma settle_promise_other k j p ps : j ≠ k → settle_promise k p ps !! j = ps !! j.
Proof.
  intros Hne. unfold settle_promise. repeat case_match; try done.
  by rewrite list_lookup_insert_ne.
Qed.

Lemma settle_promise_pending k p ps :
  ps !! k = Some Pending → settle_promise k p ps !! k = Some p.
Proof.
  intros Hk. unfold settle_promise. rewrite Hk.
  apply list_lookup_insert_eq. by eapply lookup_lt_Some.
Qed.

Lemma settle_promise_settled k p ps q :
  ps !! k = Some q → q ≠ Pending → settle_promise k p ps = ps.
Proof. intros Hk Hq. unfold settle_promise. rewrite Hk. by destruct q. Qed.

Lemma invocations_callback k j a w :
  invocations k (callback j a w) =
  invocations k w ++ (if decide (j = k) then [a] else []).
Proof.
  unfold invocations, callback; simpl. rewrite omap_app. simpl.
  by destruct (decide (j = k)).
Qed.

(** Listeners of other calls leave the callback and the promise of
    call [k] alone. *)
Lemma f1_other k j r w :
  j ≠ k →
  invocations k (f1 j r w) = invocations k w ∧
  promises (f1 j r w) !! k = promises w !! k.
Proof.
  intros Hne. unfold f1. rewrite invocations_callback.
  destruct (decide (j = k)) as [|_]; [done|]. rewrite app_nil_r. split; [done|].
  simpl. by apply settle_promise_other.
Qed.

Lemma f2_other k j e w :
  j ≠ k →
  invocations k (f2 j e w) = invocations k w ∧
  promises (f2 j e w) !! k = promises w !! k.
Proof.
  intros Hne. unfold f2. rewrite invocations_callback.
  destruct (decide (j = k)) as [|_]; [done|]. rewrite app_nil_r. split; [done|].
  simpl. by apply settle_promise_other.
Qed.

Lemma f1_self k r w :
  invocations k (f1 k r w) = invocations k w ++ [CbOk r] ∧
  promises (f1 k r w) = settle_promise k (Fulfilled r) (promises w).
Proof.
  unfold f1. rewrite invocations_callback, decide_True by done. done.
Qed.

Lemma f2_self k e w :
  invocations k (f2 k e w) = invocations k w ++ [CbErr e] ∧
  promises (f2 k e w) = settle_promise k (RejectedWith e) (promises w).
Proof.
  unfold f2. rewrite invocations_callback, decide_True by done. done.
Qed.

Lemma foldl_f1_other k r l : ∀ w,
  Forall (λ j, j ≠ k) l →
  invocations k (foldl (λ w' j, f1 j r w') w l) = invocations k w ∧
  promises (foldl (λ w' j, f1 j r w') w l) !! k = promises w !! k.
Proof.
  induction l as [|j l IH]; intros w Hl; [done|].
  inversion Hl as [|? ? Hj Hl']; subst. simpl.
  destruct (IH (f1 j r w) Hl') as [-> ->]. by apply f1_other.
Qed.

Lemma foldl_f2_other k e l : ∀ w,
  Forall (λ j, j ≠ k) l →
  invocations k (foldl (λ w' j, f2 j e w') w l) = invocations k w ∧
  promises (foldl (λ w' j, f2 j e w') w l) !! k = promises w !! k.
Proof.
  induction l as [|j l IH]; intros w Hl; [done|].
  inversion Hl as [|? ? Hj Hl']; subst. simpl.
  destruct (IH (f2 j e w) Hl') as [-> ->]. by apply f2_other.
Qed.

Lemma invocations_fresh w :
  wf w → invocations (length (promises w)) w = [].
Proof.
  intros (_ & _ & Hinv). unfold invocations.
  induction Hinv as [|p l Hp _ IH]; [done|]. simpl.
  destruct (decide (p.1 = length (promises w))); [lia | done].
Qed.

Lemma Forall_lt_ne (k : nat) (l : list nat) :
  Forall (λ j, j < k) l → Forall (λ j, j ≠ k) l.
Proof. intros H. eapply Forall_impl; [exact H|]. simpl. lia. Qed.

(** C10. On a socket whose [destroyed] flag is set, [execute] rejects
    its promise with "Socket Destroyed", and yet the command is written
    and both listeners are registered after the callback ran; the next
    "reply" (or "error") event invokes the same callback a second time,
    which the settled promise ignores. *)
Theorem execute_destroyed_calls_back_twice (w : World) (commandArray : list string) :
  wf w → destroyed w = true →
  let k := length (promises w) in
  let w' := execute commandArray w in
  promises w' !! k = Some (RejectedWith "Socket Destroyed") ∧
  written w' = written w ++ [commandArray] ∧
  reply_once w' = reply_once w ++ [k] ∧
  error_once w' = error_once w ++ [k] ∧
  invocations k w' = [CbErr "Socket Destroyed"] ∧
  (∀ r, invocations k (emit_reply r w') = [CbErr "Socket Destroyed"; CbOk r] ∧
        promises (emit_reply r w') !! k = Some (RejectedWith "Socket Destroyed")) ∧
  (∀ e, invocations k (emit_error e w') = [CbErr "Socket Destroyed"; CbErr e] ∧
        promises (emit_error e w') !! k = Some (RejectedWith "Socket Destroyed")).
Proof.
  intros Hwf Hd k w'.
  assert (Hfresh : invocations k w = []) by by apply invocations_fresh.
  destruct Hwf as (Hr & He & _).
  assert (Hp : promises w' !! k = Some (RejectedWith "Socket Destroyed")).
  { subst w' k. unfold execute, executeCb. simpl. rewrite Hd. simpl.
    apply settle_promise_pending. by rewrite lookup_app_r, Nat.sub_diag. }
  assert (Hi : invocations k w' = [CbErr "Socket Destroyed"]).
  { subst w'. unfold execute, executeCb. simpl. rewrite Hd.
    unfold invocations in *. simpl. rewrite omap_app, Hfresh. simpl.
    by rewrite decide_True. }
  assert (Hro : reply_once w' = reply_once w ++ [k]).
  { subst w'. unfold execute, executeCb. simpl. by rewrite Hd. }
  assert (Heo : error_once w' = error_once w ++ [k]).
  { subst w'. unfold execute, executeCb. simpl. by rewrite Hd. }
  split_and!; try done.
  - subst w'. unfold execute, executeCb. simpl. by rewrite Hd.
  - intros r. unfold emit_reply. rewrite Hro, foldl_app. cbn [foldl].
    destruct (foldl_f1_other k r (reply_once w) w' (Forall_lt_ne _ _ Hr)) as [Hi' Hp'].
    destruct (f1_self k r (foldl (λ w0 j, f1 j r w0) w' (reply_once w))) as [-> ->].
    rewrite Hi', Hi. split; [done|].
    erewrite settle_promise_settled; [by rewrite Hp'|by rewrite Hp'|done].
  - intros e. unfold emit_error. rewrite Heo, foldl_app. cbn [foldl].
    destruct (foldl_f2_other k e (error_once w) w' (Forall_lt_ne _ _ He)) as [Hi' Hp'].
    destruct (f2_self k e (foldl (λ w0 j, f2 j e w0) w' (error_once w))) as [-> ->].
    rewrite Hi', Hi. split; [done|].
    erewrite settle_promise_settled; [by rewrite Hp'|by rewrite Hp'|done].
Qed.

Lemma execute_destroyed_witness :
  invocations 0 (emit_reply "OK" (execute ["get"; "test_string"] (fresh_socket true))) =
    [CbErr "Socket Destroyed"; CbOk "OK"] ∧
  promises (emit_reply "OK" (execute ["get"; "test_string"] (fresh_socket true))) !! 0 =
    Some (RejectedWith "Socket Destroyed").
Proof.
  assert (wf (fresh_socket true)) as Hwf by (by split_and!; constructor).
  destruct (execute_destroyed_calls_back_twice (fresh_socket true)
              ["get"; "test_string"]%string Hwf eq_refl)
    as (_ & _ & _ & _ & _ & Hreply & _).
  exact (Hreply "OK"%string).
Defined.

End BasicProps.

(** ** Properties of lib/pool.js *)

Module PoolProps.
Import Pool PoolSpec.

(** *** Closed forms of the synchronous code *)

Lemma queueHandler_eq i s :
  is_Some (connections s !! i) →
  queueHandler i s = Some (Return tt, notified i s).
Proof.
  intros [x Hx]. unfold queueHandler, notified, mbind, M_bind, gets, modify, res, log.
  simpl. rewrite Hx.
  destruct (negb (free x) && negb (broken x)) eqn:E.
  - by destruct (queue s).
  - by destruct (queue s).
Qed.

Lemma queueHandler_stuck i s :
  connections s !! i = None → queueHandler i s = None.
Proof.
  intros Hx. unfold queueHandler, mbind, M_bind, gets. simpl. by rewrite Hx.
Qed.

Lemma emit_eq i s :
  is_Some (connections s !! i) → emit i s = Some (Return tt, emitted i s).
Proof.
  intros Hx. unfold emit, emitted, mbind, M_bind, log, modify.
  by rewrite queueHandler_eq.
Qed.

Lemma emit_stuck i s : connections s !! i = None → emit i s = None.
Proof.
  intros Hx. unfold emit, mbind, M_bind, log, modify.
  by rewrite queueHandler_stuck.
Qed.

Lemma lookup_alter_is_Some {A} (f : A → A) (l : list A) i j :
  is_Some (alter f i l !! j) ↔ is_Some (l !! j).
Proof. by rewrite !lookup_lt_is_Some, length_alter. Qed.

Lemma lookup_alter_None {A} (f : A → A) (l : list A) i j :
  alter f i l !! j = None ↔ l !! j = None.
Proof. by rewrite !lookup_ge_None, length_alter. Qed.

Lemma handleServerBroken_eq i s :
  is_Some (connections s !! i) →
  handleServerBroken i s = Some (Return tt, emitted i (broke i s)).
Proof.
  intros Hx. unfold handleServerBroken, mark_broken, mbind, M_bind, modify.
  fold (broke i s). rewrite emit_eq; [done|].
  by apply lookup_alter_is_Some.
Qed.

Lemma handleServerBroken_stuck i s :
  connections s !! i = None → handleServerBroken i s = None.
Proof.
  intros Hx. unfold handleServerBroken, mark_broken, mbind, M_bind, modify.
  rewrite emit_stuck; [done|]. by apply lookup_alter_None.
Qed.

Lemma release_eq i s :
  is_Some (connections s !! i) →
  release i s =
  Some (Return tt, emitted i (upd_connections (alter (set_free true) i) s)).
Proof.
  intros Hx. unfold release, mbind, M_bind, modify.
  rewrite emit_eq; [done|]. by apply lookup_alter_is_Some.
Qed.

Lemma handleExecuteError_eq i e s :
  is_Some (connections s !! i) →
  handleExecuteError i e s =
  Some (Throw e, if is_ConnectionError e then emitted i (broke i s) else s).
Proof.
  intros Hx. unfold handleExecuteError, mark_broken, mbind, M_bind, modify, throw.
  destruct (is_ConnectionError e); [|done].
  fold (broke i s). rewrite emit_eq; [done|]. by apply lookup_alter_is_Some.
Qed.

Lemma getOldConnection_got_eq k s :
  is_Some (connections s !! k) →
  getOldConnection_got k s = Some (Return (got_task k s), got k s).
Proof.
  intros [x Hx].
  unfold getOldConnection_got, got, got_task, initialize_start, mbind, M_bind, gets, modify.
  simpl. rewrite Hx. by destruct (broken x).
Qed.

Lemma emptyQueue_loop_eq q : ∀ s,
  emptyQueue_loop q s =
  Some (Return tt,
    mkState (match q with [] => queue s | _ => [] end)
      (connections s) (size s) (connectionLimit s)
      (foldl (λ ts w, settle w (Rejected (ConnectionError "No live TCP connection")) ts)
         (tasks s) q)
      (trace s ++ ((λ w, Rej w (ConnectionError "No live TCP connection")) <$> q))).
Proof.
  induction q as [|w q IH]; intros s.
  - simpl. rewrite app_nil_r. by destruct s.
  - simpl. unfold mbind, M_bind, modify, rej, log. simpl.
    rewrite IH. simpl. rewrite <- app_assoc. simpl. by destruct q.
Qed.

Lemma emptyQueue_eq s : emptyQueue s = Some (Return tt, rejected_all s).
Proof.
  unfold emptyQueue, mbind, M_bind, gets. rewrite emptyQueue_loop_eq.
  unfold rejected_all. by destruct (queue s).
Qed.

(** *** What a notification changes *)

Lemma notified_cases i s :
  notified i s = s ∨
  ∃ x w q', connections s !! i = Some x ∧ queue s = w :: q' ∧
    (free x = true ∨ broken x = true) ∧ notified i s = handoff i w q' s.
Proof.
  unfold notified. destruct (connections s !! i) as [x|] eqn:Hx; [|by left].
  destruct (queue s) as [|w q'] eqn:Hq; [by left|].
  destruct (free x) eqn:Hf, (broken x) eqn:Hb; simpl; eauto 10.
Qed.

Lemma emitted_cases i s :
  emitted i s = upd_trace (λ t, t ++ [Emit i]) s ∨
  ∃ x w q', connections s !! i = Some x ∧ queue s = w :: q' ∧
    (free x = true ∨ broken x = true) ∧
    emitted i s = handoff i w q' (upd_trace (λ t, t ++ [Emit i]) s).
Proof.
  unfold emitted.
  destruct (notified_cases i (upd_trace (λ t, t ++ [Emit i]) s))
    as [->|(x & w & q' & ? & ? & ? & ->)]; [by left|right; eauto 10].
Qed.

Lemma lookup_alter_Some {A} (f : A → A) (l : list A) i x :
  l !! i = Some x → alter f i l !! i = Some (f x).
Proof. intros H. by rewrite list_lookup_alter_eq, H. Qed.



Lemma settle_length c t ts : length (settle c t ts) = length ts.
Proof. unfold settle. repeat case_match; by rewrite ?length_insert. Qed.

Lemma notified_length_tasks i s : length (tasks (notified i s)) = length (tasks s).
Proof.
  destruct (notified_cases i s) as [->|(x & w & q' & _ & _ & _ & ->)]; [done|].
  simpl. apply settle_length.
Qed.

Lemma emitted_length_tasks i s : length (tasks (emitted i s)) = length (tasks s).
Proof. unfold emitted. by rewrite notified_length_tasks. Qed.

Lemma broke_length_tasks i s : length (tasks (broke i s)) = length (tasks s).
Proof. unfold broke. simpl. by rewrite length_fmap. Qed.

Lemma got_tasks k s : tasks (got k s) = tasks s.
Proof. unfold got. by repeat case_match. Qed.

(** A notification for a broken slot leaves it broken and not free
    unless nobody waits, in which case it leaves the slot as it was. *)
Lemma emitted_broken i s x :
  connections s !! i = Some x → broken x = true →
  ∃ x', connections (emitted i s) !! i = Some x' ∧ broken x' = true ∧
        (free x = false → free x' = false).
Proof.
  intros Hx Hb.
  destruct (emitted_cases i s) as [->|(y & w & q' & _ & _ & _ & ->)]; simpl.
  - eauto.
  - exists (set_free false x). split; [by apply lookup_alter_Some|done].
Qed.

Lemma emitted_trace i s : ∃ tr, trace (emitted i s) = trace s ++ Emit i :: tr.
Proof.
  destruct (emitted_cases i s) as [->|(y & w & q' & _ & _ & _ & ->)]; simpl.
  - by exists [].
  - exists [Res w i]. by rewrite <- app_assoc.
Qed.

Lemma broke_lookup i s x :
  connections s !! i = Some x →
  connections (broke i s) !! i = Some (set_broken true x).
Proof. intros Hx. simpl. by apply lookup_alter_Some. Qed.

Lemma execute_error_eq i e s :
  is_Some (connections s !! i) →
  execute i (inl e) s =
  Some (Throw e, if is_ConnectionError e then emitted i (broke i s) else s).
Proof.
  intros Hx. unfold execute, try_await, mbind, M_bind. simpl.
  by rewrite handleExecuteError_eq.
Qed.

(** C5. When the underlying [execute] rejects with [e], the wrapper
    rejects with the same [e].  For a ConnectionError the state at the
    throw already has the slot's [broken] flag set and the "release"
    notification emitted; for any other error it is the state before
    the call, flags included. *)
Theorem execute_error_discipline (s : State) (i : nat) (x : PoolConnection) (e : JsError) :
  connections s !! i = Some x →
  ∃ s', execute i (inl e) s = Some (Throw e, s') ∧
    (is_ConnectionError e = true →
       (∃ x', connections s' !! i = Some x' ∧ broken x' = true) ∧
       ∃ tr, trace s' = trace s ++ Emit i :: tr) ∧
    (is_ConnectionError e = false → s' = s).
Proof.
  intros Hx. eexists. split; [by apply execute_error_eq|].
  destruct (is_ConnectionError e); split; try done. intros _. split.
  - destruct (emitted_broken i (broke i s) _ (broke_lookup i s x Hx) eq_refl)
      as (x' & ? & ? & _). eauto.
  - apply (emitted_trace i (broke i s)).
Qed.

Lemma find_avail_Some cs k x :
  find_avail cs = Some (k, x) → cs !! k = Some x ∧ avail x = true.
Proof.
  unfold find_avail. intros (? & Ha & _)%list_find_Some.
  split; [done|]. by apply Is_true_true.
Qed.

Lemma step_GetConnection_old s k x :
  find_avail (connections s) = Some (k, x) →
  step s GetConnection =
  Some (upd_tasks (λ ts, ts ++ [got_task k s]) (got k s)).
Proof.
  intros Hfind. destruct (find_avail_Some _ _ _ Hfind) as [Hx _].
  unfold step, as_task, getConnection, getOldConnection, mbind at 1 2 3, M_bind, gets.
  simpl. rewrite Hfind. rewrite bool_decide_eq_false_2 by done. simpl.
  unfold mbind, M_bind. simpl. rewrite Hfind.
  by rewrite getOldConnection_got_eq.
Qed.

Lemma step_Settle_error s c i e :
  (tasks s !! c = Some (AwaitInit i) ∨ tasks s !! c = Some (AwaitRepair i)) →
  is_Some (connections s !! i) →
  step s (Settle c (Some e)) =
  Some (upd_tasks (<[c := Failed e]>)
          (if is_ConnectionError e then emitted i (broke i s) else s)).
Proof.
  intros Hc Hi.
  assert (as_task (initialize_settled i (Some e);; mret (Holding i)) s =
          Some (Failed e, if is_ConnectionError e then emitted i (broke i s) else s))
    as Heq.
  { unfold as_task, initialize_settled, try_await, mbind, M_bind. simpl.
    by rewrite handleExecuteError_eq. }
  unfold step. destruct Hc as [-> | ->]; by rewrite Heq.
Qed.

(** *** The steps, in closed form *)

Lemma find_avail_None cs :
  find_avail cs = None ↔ ∀ j x, cs !! j = Some x → avail x = false.
Proof.
  unfold find_avail. rewrite list_find_None, Forall_lookup.
  apply forall_proper; intros j. apply forall_proper; intros x.
  rewrite <- Is_true_false. done.
Qed.

Lemma alter_snoc {A} (f : A → A) (l : list A) (x : A) :
  alter f (length l) (l ++ [x]) = l ++ [f x].
Proof. induction l as [|y l IH]; simpl; [done|]. by f_equal. Qed.

Lemma step_GetConnection_new s :
  find_avail (connections s) = None → size s < connectionLimit s →
  step s GetConnection =
  Some (mkState (queue s) (connections s ++ [newly (length (connections s))])
          (S (size s)) (connectionLimit s)
          (tasks s ++ [AwaitInit (length (connections s))]) (trace s)).
Proof.
  intros Hfind Hlt.
  unfold step, as_task, getConnection, getNewConnection, initialize_start,
    mbind at 1 2 3, M_bind, gets.
  simpl. rewrite Hfind. rewrite !bool_decide_eq_true_2 by done. simpl.
  unfold mbind, M_bind, modify, upd_tasks, upd_connections, upd_size. simpl.
  rewrite (bool_decide_eq_true_2 (size s < _)) by done. simpl.
  by rewrite alter_snoc.
Qed.

Lemma step_GetConnection_wait s :
  find_avail (connections s) = None → ¬ size s < connectionLimit s →
  step s GetConnection =
  Some (mkState (queue s ++ [length (tasks s)]) (connections s) (size s)
          (connectionLimit s) (tasks s ++ [AwaitRelease])
          (trace s ++ [Push (length (tasks s))])).
Proof.
  intros Hfind Hlt.
  unfold step, as_task, getConnection, getOldConnection, waitForRelease, log,
    mbind, M_bind, gets, modify.
  simpl. rewrite Hfind. rewrite (bool_decide_eq_false_2 (_ < _)) by done.
  rewrite andb_false_r. by rewrite Hfind.
Qed.

Lemma step_Settle_ok s c i :
  (tasks s !! c = Some (AwaitInit i) ∨ tasks s !! c = Some (AwaitRepair i)) →
  step s (Settle c None) = Some (upd_tasks (<[c := Holding i]>) s).
Proof. intros [H|H]; unfold step; by rewrite H. Qed.

Lemma step_Resume_resolved s c i :
  tasks s !! c = Some (Resolved i) → is_Some (connections s !! i) →
  step s (Resume c) = Some (upd_tasks (<[c := got_task i s]>) (got i s)).
Proof.
  intros Hc Hi. unfold step, as_task. rewrite Hc.
  by rewrite getOldConnection_got_eq.
Qed.

Lemma step_Resume_rejected s c e :
  tasks s !! c = Some (Rejected e) →
  step s (Resume c) = Some (upd_tasks (<[c := Failed e]>) s).
Proof. intros Hc. unfold step. by rewrite Hc. Qed.

Lemma step_Release s c t i :
  tasks s !! c = Some t → in_hand t = Some i → is_Some (connections s !! i) →
  step s (Release c) =
  Some (emitted i (upd_connections (alter (set_free true) i)
                     (upd_tasks (<[c := Released i]>) s))).
Proof.
  intros Hc Ht Hi. unfold step, effect. rewrite Hc. simpl. rewrite Ht. simpl.
  by rewrite release_eq.
Qed.

Lemma step_Execute s c t i r :
  tasks s !! c = Some t → in_hand t = Some i → is_Some (connections s !! i) →
  step s (Execute c r) =
  Some (match r with
        | inl e => if is_ConnectionError e then emitted i (broke i s) else s
        | inr _ => s
        end).
Proof.
  intros Hc Ht Hi. unfold step, effect. rewrite Hc. simpl. rewrite Ht. simpl.
  destruct r as [e|r]; [by rewrite execute_error_eq|done].
Qed.

Lemma step_ServerBroken s i :
  is_Some (connections s !! i) →
  step s (ServerBroken i) = Some (emitted i (broke i s)).
Proof. intros Hi. unfold step, effect. by rewrite handleServerBroken_eq. Qed.

Lemma step_EmptyQueue s : step s EmptyQueue = Some (rejected_all s).
Proof. unfold step, effect. by rewrite emptyQueue_eq. Qed.

(** *** Well-formedness is kept by every step *)

Lemma pushes_app tr1 tr2 : pushes (tr1 ++ tr2) = pushes tr1 ++ pushes tr2.
Proof. apply omap_app. Qed.
Lemma served_app tr1 tr2 : served (tr1 ++ tr2) = served tr1 ++ served tr2.
Proof. apply omap_app. Qed.
Lemma fulfilled_app tr1 tr2 : fulfilled (tr1 ++ tr2) = fulfilled tr1 ++ fulfilled tr2.
Proof. apply omap_app. Qed.

Lemma alter_lookup_inv {A} (f : A → A) (l : list A) i k y :
  alter f i l !! k = Some y →
  ∃ x, l !! k = Some x ∧ (y = x ∨ (k = i ∧ y = f x)).
Proof.
  destruct (decide (i = k)) as [->|Hne].
  - rewrite list_lookup_alter_eq. destruct (l !! k) as [x|]; [|done].
    intros [= <-]. eauto.
  - rewrite list_lookup_alter_ne by done. eauto.
Qed.

Lemma settle_lookup_other c t ts j : j ≠ c → settle c t ts !! j = ts !! j.
Proof.
  intros Hne. unfold settle. repeat case_match; try done.
  by rewrite list_lookup_insert_ne.
Qed.

Lemma settle_lookup_inv c t ts j u :
  settle c t ts !! j = Some u →
  ts !! j = Some u ∨ (j = c ∧ u = t ∧ ts !! c = Some AwaitRelease).
Proof.
  unfold settle. destruct (ts !! c) as [[]|] eqn:Hc; auto.
  intros [(-> & -> & _)|(_ & ?)]%list_lookup_insert_Some; auto.
Qed.

Lemma settle_pending c t ts :
  ts !! c = Some AwaitRelease → settle c t ts !! c = Some t.
Proof.
  intros Hc. unfold settle. rewrite Hc.
  apply list_lookup_insert_eq. by eapply lookup_lt_Some.
Qed.

Lemma wf_core_queue_nodup s : wf_core s → NoDup (queue s).
Proof.
  intros H. pose proof (wf_nodup _ H) as Hn. rewrite (wf_served _ H) in Hn.
  by apply NoDup_app in Hn as (_ & _ & ?).
Qed.

Lemma wf_core_emit_log i s :
  wf_core s → wf_core (upd_trace (λ t, t ++ [Emit i]) s).
Proof.
  intros []. constructor; simpl; try done;
    rewrite ?pushes_app, ?served_app; simpl; rewrite ?app_nil_r; done.
Qed.

Lemma wf_core_connections f s :
  wf_core s →
  length (f (connections s)) = length (connections s) →
  (∀ k y, f (connections s) !! k = Some y → idx y = k) →
  wf_core (upd_connections f s).
Proof.
  intros [] Hlen Hidx. constructor; simpl; try done; rewrite ?Hlen; done.
Qed.

Lemma wf_core_alter f i s :
  wf_core s → (∀ x, idx (f x) = idx x) →
  wf_core (upd_connections (alter f i) s).
Proof.
  intros H Hf. apply wf_core_connections; [done|apply length_alter|].
  intros k y (x & Hx & [->|[-> ->]])%alter_lookup_inv.
  - by eapply wf_idx.
  - rewrite Hf. by eapply wf_idx.
Qed.

Lemma wf_core_handoff i w q' s :
  wf_core s → queue s = w :: q' → i < length (connections s) →
  wf_core (handoff i w q' s).
Proof.
  intros H Hq Hi.
  pose proof (wf_core_queue_nodup _ H) as Hnd. rewrite Hq in Hnd.
  apply NoDup_cons in Hnd as [Hw Hnd].
  pose proof (wf_core_alter (set_free false) i s H (λ _, eq_refl)) as [].
  destruct H. simpl in *. constructor; simpl; try done.
  - intros c t j Hc Hs. rewrite length_alter.
    apply settle_lookup_inv in Hc as [Hc|(-> & -> & _)]; [by eauto|].
    by injection Hs as <-.
  - intros w' Hw'. rewrite settle_lookup_other by (by intros ->).
    apply wf_queue1. rewrite Hq. by right.
  - rewrite pushes_app, served_app. simpl. rewrite app_nil_r.
    by rewrite wf_served1, Hq, <- app_assoc.
  - rewrite pushes_app. simpl. by rewrite app_nil_r.
  - intros c. rewrite pushes_app, settle_length. simpl. rewrite app_nil_r. auto.
Qed.

Lemma wf_core_notified i s : wf_core s → wf_core (notified i s).
Proof.
  intros H.
  destruct (notified_cases i s) as [->|(x & w & q' & Hx & Hq & _ & ->)]; [done|].
  apply wf_core_handoff; [done..|]. by eapply lookup_lt_Some.
Qed.

Lemma wf_core_emitted i s : wf_core s → wf_core (emitted i s).
Proof. intros H. by apply wf_core_notified, wf_core_emit_log. Qed.

Lemma quiet_weaken o s : quiet_but None s → quiet_but o s.
Proof. intros H Hq j x Hx _. by eapply H. Qed.

Lemma quiet_alter_but (f : PoolConnection → PoolConnection) i s :
  quiet_but None s → quiet_but (Some i) (upd_connections (alter f i) s).
Proof.
  intros H Hq j x Hx Hj. simpl in *.
  rewrite list_lookup_alter_ne in Hx by congruence. by eapply H.
Qed.

Lemma quiet_alter (f : PoolConnection → PoolConnection) i o s :
  (∀ x, free x = false → free (f x) = false) →
  quiet_but o s → quiet_but o (upd_connections (alter f i) s).
Proof.
  intros Hf H Hq j y (x & Hx & [->|[-> ->]])%alter_lookup_inv Hj; simpl in *.
  - by eapply H.
  - apply Hf. by eapply H.
Qed.

Lemma quiet_handoff i w q' s :
  quiet_but (Some i) s → queue s = w :: q' → quiet_but None (handoff i w q' s).
Proof.
  intros H Hq _ j y Hy _. simpl in *.
  destruct (decide (j = i)) as [->|Hne].
  - rewrite list_lookup_alter_eq in Hy.
    destruct (connections s !! i); by simplify_eq/=.
  - rewrite list_lookup_alter_ne in Hy by done.
    eapply H; [by rewrite Hq|done|congruence].
Qed.

Lemma quiet_notified i s : quiet_but (Some i) s → quiet_but None (notified i s).
Proof.
  intros H. unfold notified.
  destruct (connections s !! i) as [x|] eqn:Hx.
  - destruct (queue s) as [|w q'] eqn:Hq; [by intros ?|].
    destruct (negb (free x) && negb (broken x)) eqn:Hskip.
    + intros _ j y Hy _. destruct (decide (j = i)) as [->|Hne].
      * simplify_eq. by destruct (free x).
      * eapply H; [by rewrite Hq|done|congruence].
    + by apply quiet_handoff.
  - intros Hq j y Hy _. eapply H; [done..|]. congruence.
Qed.

Lemma quiet_emitted i s : quiet_but (Some i) s → quiet_but None (emitted i s).
Proof. intros H. by apply quiet_notified. Qed.

Lemma wf_emitted i s : wf s → wf (emitted i s).
Proof.
  intros [Hc Hq]. split; [by apply wf_core_emitted|].
  by apply quiet_emitted, quiet_weaken.
Qed.

Lemma lose_slot_of i t : slot_of (lose i t) = slot_of t.
Proof. destruct t; simpl; try done. by case_decide. Qed.

Lemma wf_core_broke i s : wf_core s → wf_core (broke i s).
Proof.
  intros H.
  pose proof (wf_core_alter (set_broken true) i s H (λ _, eq_refl)) as [].
  simpl in *. constructor; simpl; try done.
  - intros c t j. rewrite list_lookup_fmap.
    destruct (tasks s !! c) as [t0|] eqn:Hc; [|done]. intros [= <-].
    rewrite lose_slot_of. by eapply wf_slots0.
  - intros w Hw. by rewrite list_lookup_fmap, wf_queue0.
  - intros c. rewrite length_fmap. auto.
Qed.

Lemma quiet_broke i o s : quiet_but o s → quiet_but o (broke i s).
Proof. intros H. by apply (quiet_alter (set_broken true) i o s). Qed.

Lemma wf_broken i s : wf s → wf (emitted i (broke i s)).
Proof.
  intros [Hc Hq]. apply wf_emitted. split; [by apply wf_core_broke|].
  by apply quiet_broke.
Qed.

Lemma got_length k s : length (connections (got k s)) = length (connections s).
Proof. unfold got. repeat case_match; simpl; by rewrite ?length_alter. Qed.

Lemma wf_core_got k s : wf_core s → wf_core (got k s).
Proof.
  intros H. unfold got. repeat case_match; try done;
    repeat (apply wf_core_alter; [|done]); done.
Qed.

Lemma quiet_got k o s : quiet_but o s → quiet_but o (got k s).
Proof.
  intros H. unfold got. repeat case_match; try done;
    repeat (apply quiet_alter; [done|]); done.
Qed.

Lemma got_task_slot k s i :
  is_Some (connections s !! k) → slot_of (got_task k s) = Some i → i = k.
Proof.
  intros [x Hx]. unfold got_task. rewrite Hx.
  destruct (broken x); by intros [= <-].
Qed.

Lemma wf_core_set_task c t t0 s :
  wf_core s → tasks s !! c = Some t0 → t0 ≠ AwaitRelease →
  (∀ i, slot_of t = Some i → i < length (connections s)) →
  wf_core (upd_tasks (<[c := t]>) s).
Proof.
  intros [] Hc Ht0 Ht. constructor; simpl; try done.
  - intros c' t' i [(-> & -> & _)|(_ & ?)]%list_lookup_insert_Some; eauto.
  - intros w Hw. rewrite list_lookup_insert_ne; [by auto|].
    intros ->. apply wf_queue0 in Hw. congruence.
  - intros c'. rewrite length_insert. auto.
Qed.

Lemma wf_core_spawn t s :
  wf_core s → (∀ i, slot_of t = Some i → i < length (connections s)) →
  wf_core (upd_tasks (λ ts, ts ++ [t]) s).
Proof.
  intros [] Ht. constructor; simpl; try done.
  - intros c' t' i [?|(_ & Hl)]%lookup_app_Some; [by eauto|].
    apply list_lookup_singleton_Some in Hl as [_ <-]. auto.
  - intros w Hw. apply lookup_app_l_Some. auto.
  - intros c' Hc'. rewrite length_app. apply wf_pushed0 in Hc'. lia.
Qed.

Lemma wf_new s :
  wf s → find_avail (connections s) = None → size s < connectionLimit s →
  wf (mkState (queue s) (connections s ++ [newly (length (connections s))])
        (S (size s)) (connectionLimit s)
        (tasks s ++ [AwaitInit (length (connections s))]) (trace s)).
Proof.
  intros [[] Hq] Hfind Hlt. split; [constructor|]; simpl; try done.
  - rewrite length_app. simpl. lia.
  - intros k x [?|(Hge & Hl)]%lookup_app_Some; [by eauto|].
    apply list_lookup_singleton_Some in Hl as [Hk <-]. simpl. lia.
  - intros c t i [?|(_ & Hl)]%lookup_app_Some Hs; rewrite length_app; simpl.
    + apply (wf_slots0 _ _ _ H) in Hs. lia.
    + apply list_lookup_singleton_Some in Hl as [_ <-]. simplify_eq/=. lia.
  - intros w Hw. apply lookup_app_l_Some. auto.
  - intros c' Hc'. rewrite length_app. apply wf_pushed0 in Hc'. lia.
  - intros Hne j x [?|(_ & Hl)]%lookup_app_Some _; [by eapply Hq|].
    by apply list_lookup_singleton_Some in Hl as [_ <-].
Qed.

Lemma wf_wait s :
  wf s → find_avail (connections s) = None →
  wf (mkState (queue s ++ [length (tasks s)]) (connections s) (size s)
        (connectionLimit s) (tasks s ++ [AwaitRelease])
        (trace s ++ [Push (length (tasks s))])).
Proof.
  intros [[] Hq] Hfind. split; [constructor|]; simpl; try done.
  - intros c t i [?|(_ & Hl)]%lookup_app_Some Hs; [by eauto|].
    apply list_lookup_singleton_Some in Hl as [_ <-]. done.
  - intros w [Hw| ->%list_elem_of_singleton]%elem_of_app.
    + apply lookup_app_l_Some. auto.
    + by rewrite lookup_app_r, Nat.sub_diag.
  - rewrite pushes_app, served_app. simpl. rewrite app_nil_r.
    by rewrite wf_served0, app_assoc.
  - rewrite pushes_app. simpl. apply NoDup_app. split_and!; [done| |apply NoDup_singleton].
    intros c Hc ->%list_elem_of_singleton. apply wf_pushed0 in Hc. lia.
  - intros c. rewrite pushes_app, length_app. simpl.
    intros [Hc| ->%list_elem_of_singleton]%elem_of_app; [apply wf_pushed0 in Hc|]; lia.
  - intros _ j x Hx _. rewrite find_avail_None in Hfind.
    apply Hfind in Hx. unfold avail in Hx. by apply orb_false_elim in Hx as [? _].
Qed.

Lemma foldl_settle_length (f : nat → Task) q : ∀ ts,
  length (foldl (λ ts w, settle w (f w) ts) ts q) = length ts.
Proof.
  induction q as [|w q IH]; intros ts; simpl; [done|].
  by rewrite IH, settle_length.
Qed.

Lemma foldl_settle_inv (f : nat → Task) q : ∀ ts j u,
  foldl (λ ts w, settle w (f w) ts) ts q !! j = Some u →
  ts !! j = Some u ∨ (j ∈ q ∧ u = f j).
Proof.
  induction q as [|w q IH]; intros ts j u; simpl; [by auto|].
  intros [Hj|(Hj & ->)]%IH.
  - apply settle_lookup_inv in Hj as [?|(-> & -> & ?)]; [by auto|].
    right. split; [by left|done].
  - right. split; [by right|done].
Qed.

Lemma pushes_rej e q : pushes ((λ w, Rej w e) <$> q) = [].
Proof. by induction q. Qed.

Lemma served_rej e q : served ((λ w, Rej w e) <$> q) = q.
Proof. induction q as [|w q IH]; simpl; [done|]. by f_equal. Qed.

Lemma fulfilled_rej e q : fulfilled ((λ w, Rej w e) <$> q) = [].
Proof. by induction q. Qed.

Lemma wf_rejected_all s : wf s → wf (rejected_all s).
Proof.
  intros [[] Hq]. split; [constructor|]; simpl.
  - done.
  - done.
  - done.
  - intros c t i [?|(_ & ->)]%foldl_settle_inv; [by eauto|done].
  - intros w Hw. by apply elem_of_nil in Hw.
  - by rewrite pushes_app, served_app, pushes_rej, served_rej, !app_nil_r.
  - by rewrite pushes_app, pushes_rej, app_nil_r.
  - intros c. rewrite pushes_app, pushes_rej, app_nil_r, foldl_settle_length. auto.
  - by intros ?.
Qed.

Lemma in_hand_slot_of t i : in_hand t = Some i → slot_of t = Some i ∧ t ≠ AwaitRelease.
Proof. by destruct t; intros [= <-]. Qed.

Lemma wf_released s c t i :
  wf s → tasks s !! c = Some t → in_hand t = Some i →
  wf (emitted i (upd_connections (alter (set_free true) i)
                   (upd_tasks (<[c := Released i]>) s))).
Proof.
  intros [Hc Hq] Ht [Hs Hne]%in_hand_slot_of.
  assert (i < length (connections s)) as Hi by by eapply wf_slots.
  split.
  - apply wf_core_emitted, wf_core_alter; [|done].
    eapply wf_core_set_task; [done..|]. by intros ? [= <-].
  - apply quiet_emitted.
    by apply (quiet_alter_but (set_free true) i (upd_tasks (<[c := Released i]>) s)).
Qed.

Lemma wf_got_spawn s k :
  wf s → is_Some (connections s !! k) →
  wf (upd_tasks (λ ts, ts ++ [got_task k s]) (got k s)).
Proof.
  intros [Hc Hq] Hk. split.
  - apply wf_core_spawn; [by apply wf_core_got|].
    intros i ->%got_task_slot; [|done].
    rewrite got_length. by apply lookup_lt_is_Some.
  - by apply (quiet_got k None s).
Qed.

Lemma wf_got_set s c t0 k :
  wf s → tasks s !! c = Some t0 → t0 ≠ AwaitRelease →
  is_Some (connections s !! k) →
  wf (upd_tasks (<[c := got_task k s]>) (got k s)).
Proof.
  intros [Hc Hq] Ht0 Hne Hk. split.
  - eapply wf_core_set_task; [by apply wf_core_got|by rewrite got_tasks|done|].
    intros i ->%got_task_slot; [|done].
    rewrite got_length. by apply lookup_lt_is_Some.
  - by apply (quiet_got k None s).
Qed.

Lemma wf_set_task s c t t0 :
  wf s → tasks s !! c = Some t0 → t0 ≠ AwaitRelease →
  (∀ i, slot_of t = Some i → i < length (connections s)) →
  wf (upd_tasks (<[c := t]>) s).
Proof. intros [Hc Hq] ???. split; [by eapply wf_core_set_task|done]. Qed.

Lemma wf_init config : wf (RedisConnectionPool config).
Proof.
  split; [constructor|]; simpl; try done.
  - lia.
  - intros w Hw. by apply elem_of_nil in Hw.
  - apply NoDup_nil_2.
  - intros c Hc. by apply elem_of_nil in Hc.
Qed.

Lemma settle_keeps w u ts c t :
  ts !! c = Some t → t ≠ AwaitRelease → settle w u ts !! c = Some t.
Proof.
  intros Hc Hne. destruct (decide (c = w)) as [->|?].
  - unfold settle. rewrite Hc. by destruct t.
  - by rewrite settle_lookup_other.
Qed.

Lemma notified_task i s c t :
  tasks s !! c = Some t → t ≠ AwaitRelease → tasks (notified i s) !! c = Some t.
Proof.
  intros Hc Hne.
  destruct (notified_cases i s) as [->|(x & w & q' & _ & _ & _ & ->)]; [done|].
  simpl. by apply settle_keeps.
Qed.

Lemma emitted_task i s c t :
  tasks s !! c = Some t → t ≠ AwaitRelease → tasks (emitted i s) !! c = Some t.
Proof. intros ??. by apply notified_task. Qed.

Lemma broke_task i s c t :
  tasks s !! c = Some t → tasks (broke i s) !! c = Some (lose i t).
Proof. intros Hc. simpl. by rewrite list_lookup_fmap, Hc. Qed.

Lemma lose_AwaitRelease i t : t ≠ AwaitRelease → lose i t ≠ AwaitRelease.
Proof. destruct t; simpl; try done. by case_decide. Qed.

Lemma emitted_length i s :
  length (connections (emitted i s)) = length (connections s).
Proof.
  destruct (emitted_cases i s) as [->|(x & w & q' & _ & _ & _ & ->)]; [done|].
  simpl. by rewrite length_alter.
Qed.

Lemma broke_length i s : length (connections (broke i s)) = length (connections s).
Proof. simpl. by rewrite length_alter. Qed.

Lemma wf_step s ev s' : wf s → step s ev = Some s' → wf s'.
Proof.
  intros Hwf Hstep. destruct ev as [|c r|c|c|c r|i|].
  - destruct (find_avail (connections s)) as [[k x]|] eqn:Hfind.
    + rewrite (step_GetConnection_old _ _ _ Hfind) in Hstep.
      injection Hstep as <-. apply wf_got_spawn; [done|].
      apply find_avail_Some in Hfind as [-> _]. eauto.
    + destruct (decide (size s < connectionLimit s)) as [Hlt|Hge].
      * rewrite step_GetConnection_new in Hstep by done.
        injection Hstep as <-. by apply wf_new.
      * rewrite step_GetConnection_wait in Hstep by done.
        injection Hstep as <-. by apply wf_wait.
  - assert (∀ i, tasks s !! c = Some (AwaitInit i) ∨ tasks s !! c = Some (AwaitRepair i) →
                 wf s') as Hgo.
    { intros i Hc.
      assert (∃ t0, tasks s !! c = Some t0 ∧ t0 ≠ AwaitRelease ∧
                    slot_of t0 = Some i ∧ ∀ j, lose j t0 = t0)
        as (t0 & Ht0 & Hne & Hs & Hlose)
        by (destruct Hc as [Hc|Hc]; eauto 10).
      assert (i < length (connections s)) as Hi by by eapply wf_slots; [apply Hwf|..].
      destruct r as [e|].
      - rewrite (step_Settle_error s c i e Hc) in Hstep
          by by apply lookup_lt_is_Some.
        injection Hstep as <-.
        destruct (is_ConnectionError e).
        + eapply wf_set_task; [by apply wf_broken| |done|done].
          apply emitted_task; [|done]. rewrite <- (Hlose i). by apply broke_task.
        + by eapply wf_set_task.
      - rewrite (step_Settle_ok s c i Hc) in Hstep. injection Hstep as <-.
        eapply wf_set_task; [done..|].
        by intros ? [= <-]. }
    unfold step in Hstep.
    destruct (tasks s !! c) as [[]|] eqn:Hc; try done; eapply Hgo; eauto.
  - destruct (tasks s !! c) as [t|] eqn:Hc;
      [|unfold step in Hstep; by rewrite Hc in Hstep].
    destruct t; try (unfold step in Hstep; by rewrite Hc in Hstep).
    + assert (i < length (connections s)) as Hi by by eapply wf_slots; [apply Hwf|..].
      rewrite (step_Resume_resolved s c i Hc) in Hstep by by apply lookup_lt_is_Some.
      injection Hstep as <-. eapply wf_got_set; [done..|].
      by apply lookup_lt_is_Some.
    + rewrite (step_Resume_rejected s c e Hc) in Hstep. injection Hstep as <-.
      by eapply wf_set_task.
  - destruct (tasks s !! c) as [t|] eqn:Hc;
      [|unfold step in Hstep; by rewrite Hc in Hstep].
    destruct (in_hand t) as [i|] eqn:Ht;
      [|unfold step in Hstep; rewrite Hc in Hstep; simpl in Hstep; by rewrite Ht in Hstep].
    assert (i < length (connections s)) as Hi.
    { apply in_hand_slot_of in Ht as [Hs _]. by eapply wf_slots; [apply Hwf|..]. }
    rewrite (step_Release s c t i Hc Ht) in Hstep by by apply lookup_lt_is_Some.
    injection Hstep as <-. by eapply wf_released.
  - destruct (tasks s !! c) as [t|] eqn:Hc;
      [|unfold step in Hstep; by rewrite Hc in Hstep].
    destruct (in_hand t) as [i|] eqn:Ht;
      [|unfold step in Hstep; rewrite Hc in Hstep; simpl in Hstep; by rewrite Ht in Hstep].
    assert (i < length (connections s)) as Hi.
    { apply in_hand_slot_of in Ht as [Hs _]. by eapply wf_slots; [apply Hwf|..]. }
    rewrite (step_Execute s c t i r Hc Ht) in Hstep by by apply lookup_lt_is_Some.
    injection Hstep as <-.
    destruct r as [e|]; [|done]. destruct (is_ConnectionError e); [|done].
    by apply wf_broken.
  - destruct (connections s !! i) as [x|] eqn:Hi.
    + rewrite step_ServerBroken in Hstep by by rewrite Hi.
      injection Hstep as <-. by apply wf_broken.
    + unfold step, effect in Hstep. by rewrite handleServerBroken_stuck in Hstep.
  - rewrite step_EmptyQueue in Hstep. injection Hstep as <-.
    by apply wf_rejected_all.
Qed.

Lemma wf_run evs : ∀ s s', wf s → run s evs = Some s' → wf s'.
Proof.
  induction evs as [|ev evs IH]; intros s s' Hwf Hrun; simpl in Hrun.
  - by injection Hrun as <-.
  - destruct (step s ev) as [s1|] eqn:Hstep; [|done].
    eapply IH; [|exact Hrun]. by eapply wf_step.
Qed.

Lemma wf_reachable config evs s :
  run (RedisConnectionPool config) evs = Some s → wf s.
Proof. apply wf_run, wf_init. Qed.

Lemma run_app evs1 evs2 s :
  run s (evs1 ++ evs2) = run s evs1 ≫= λ s1, run s1 evs2.
Proof.
  revert s. induction evs1 as [|ev evs1 IH]; intros s; simpl; [done|].
  destruct (step s ev); simpl; [apply IH|done].
Qed.

Lemma step_inv s ev s' : wf s → step s ev = Some s' → transition s ev s'.
Proof.
  intros Hwf Hstep. destruct ev as [|c r|c|c|c r|i|].
  - destruct (find_avail (connections s)) as [[k x]|] eqn:Hfind.
    + rewrite (step_GetConnection_old _ _ _ Hfind) in Hstep.
      injection Hstep as <-. by econstructor.
    + destruct (decide (size s < connectionLimit s)) as [Hlt|Hge].
      * rewrite step_GetConnection_new in Hstep by done.
        injection Hstep as <-. by constructor.
      * rewrite step_GetConnection_wait in Hstep by done.
        injection Hstep as <-. by constructor.
  - assert (∀ i, awaiting s c i → transition s (Settle c r) s') as Hgo.
    { intros i Hc.
      assert (i < length (connections s)) as Hi
        by (destruct Hc as [Hc|Hc]; by eapply wf_slots; [apply Hwf|exact Hc|]).
      destruct r as [e|].
      - rewrite (step_Settle_error s c i e Hc) in Hstep
          by by apply lookup_lt_is_Some.
        injection Hstep as <-.
        destruct (is_ConnectionError e) eqn:He; by econstructor.
      - rewrite (step_Settle_ok s c i Hc) in Hstep. injection Hstep as <-.
        by constructor. }
    unfold step in Hstep.
    destruct (tasks s !! c) as [[]|] eqn:Hc; try done; eapply Hgo;
      unfold awaiting; eauto.
  - destruct (tasks s !! c) as [t|] eqn:Hc;
      [|unfold step in Hstep; by rewrite Hc in Hstep].
    destruct t; try (unfold step in Hstep; by rewrite Hc in Hstep).
    + assert (i < length (connections s)) as Hi by by eapply wf_slots; [apply Hwf|..].
      rewrite (step_Resume_resolved s c i Hc) in Hstep by by apply lookup_lt_is_Some.
      injection Hstep as <-. by constructor.
    + rewrite (step_Resume_rejected s c e Hc) in Hstep. injection Hstep as <-.
      by constructor.
  - destruct (tasks s !! c) as [t|] eqn:Hc;
      [|unfold step in Hstep; by rewrite Hc in Hstep].
    destruct (in_hand t) as [i|] eqn:Ht;
      [|unfold step in Hstep; rewrite Hc in Hstep; simpl in Hstep; by rewrite Ht in Hstep].
    assert (i < length (connections s)) as Hi.
    { apply in_hand_slot_of in Ht as [Hs _]. by eapply wf_slots; [apply Hwf|..]. }
    rewrite (step_Release s c t i Hc Ht) in Hstep by by apply lookup_lt_is_Some.
    injection Hstep as <-. by econstructor.
  - destruct (tasks s !! c) as [t|] eqn:Hc;
      [|unfold step in Hstep; by rewrite Hc in Hstep].
    destruct (in_hand t) as [i|] eqn:Ht;
      [|unfold step in Hstep; rewrite Hc in Hstep; simpl in Hstep; by rewrite Ht in Hstep].
    assert (i < length (connections s)) as Hi.
    { apply in_hand_slot_of in Ht as [Hs _]. by eapply wf_slots; [apply Hwf|..]. }
    rewrite (step_Execute s c t i r Hc Ht) in Hstep by by apply lookup_lt_is_Some.
    injection Hstep as <-.
    destruct r as [e|]; [|by econstructor].
    destruct (is_ConnectionError e) eqn:He; by econstructor.
  - destruct (connections s !! i) as [x|] eqn:Hi.
    + rewrite step_ServerBroken in Hstep by by rewrite Hi.
      injection Hstep as <-. constructor. by eapply lookup_lt_Some.
    + unfold step, effect in Hstep. by rewrite handleServerBroken_stuck in Hstep.
  - rewrite step_EmptyQueue in Hstep. injection Hstep as <-. constructor.
Qed.

(** The transitions are steps: nothing is lost in the case analysis. *)
Lemma transition_step s ev s' : transition s ev s' → step s ev = Some s'.
Proof.
  intros [k x Hfind|Hfind Hlt|Hfind Hge|c i Hc|c i e Hc Hi He|c i e Hc Hi He
         |c i Hc Hi|c e Hc|c t i Hc Ht Hi|c t i e Hc Ht Hi He|c t i r Hc Ht Hi Hr
         |i Hi|].
  - by eapply step_GetConnection_old.
  - by apply step_GetConnection_new.
  - by apply step_GetConnection_wait.
  - by apply step_Settle_ok.
  - rewrite (step_Settle_error s c i e Hc) by by apply lookup_lt_is_Some.
    by rewrite He.
  - rewrite (step_Settle_error s c i e Hc) by by apply lookup_lt_is_Some.
    by rewrite He.
  - apply step_Resume_resolved; [done|]. by apply lookup_lt_is_Some.
  - by apply step_Resume_rejected.
  - eapply step_Release; [done..|]. by apply lookup_lt_is_Some.
  - rewrite (step_Execute s c t i _ Hc Ht) by by apply lookup_lt_is_Some.
    by rewrite He.
  - rewrite (step_Execute s c t i _ Hc Ht) by by apply lookup_lt_is_Some.
    destruct r as [e|]; [by rewrite Hr|done].
  - apply step_ServerBroken. by apply lookup_lt_is_Some.
  - apply step_EmptyQueue.
Qed.

(** *** The pool only grows, and only up to its limit *)

Lemma emitted_frame i s :
  connectionLimit (emitted i s) = connectionLimit s ∧
  size (emitted i s) = size s.
Proof.
  by destruct (emitted_cases i s) as [->|(x & w & q' & _ & _ & _ & ->)].
Qed.

Lemma got_frame k s :
  connectionLimit (got k s) = connectionLimit s ∧ size (got k s) = size s.
Proof. unfold got. by repeat case_match. Qed.

Lemma transition_grows s ev s' :
  transition s ev s' →
  connectionLimit s' = connectionLimit s ∧
  length (connections s) ≤ length (connections s') ∧
  size s ≤ size s'.
Proof.
  intros []; simpl;
    rewrite ?(proj1 (emitted_frame _ _)), ?(proj2 (emitted_frame _ _)),
      ?(proj1 (got_frame _ _)), ?(proj2 (got_frame _ _)),
      ?emitted_length, ?got_length, ?length_app; simpl;
    rewrite ?length_alter; simpl; split_and!; lia.
Qed.

Lemma run_grows evs : ∀ s s',
  wf s → run s evs = Some s' →
  connectionLimit s' = connectionLimit s ∧
  length (connections s) ≤ length (connections s') ∧
  size s ≤ size s'.
Proof.
  induction evs as [|ev evs IH]; intros s s' Hwf Hrun; simpl in Hrun.
  - injection Hrun as <-. split_and!; lia.
  - destruct (step s ev) as [s1|] eqn:Hstep; [|done].
    destruct (transition_grows s ev s1) as (? & ? & ?); [by apply step_inv|].
    destruct (IH s1 s') as (? & ? & ?); [by eapply wf_step|done|].
    split_and!; [congruence|lia..].
Qed.

(** C8. Whatever happens to a pool, it never holds more connections
    than [connectionLimit], which stays as configured; a connection's
    [idx] is its position in [connections]; and a connection once in
    the pool is found at the same position, with the same [idx], ever
    after. *)
Theorem pool_growth (config : option nat) (evs : list Event) (s : State) :
  run (RedisConnectionPool config) evs = Some s →
  length (connections s) ≤ connectionLimit s ∧
  connectionLimit s = default 10 config ∧
  (∀ k x, connections s !! k = Some x → idx x = k) ∧
  ∀ evs' s', run s evs' = Some s' →
    length (connections s) ≤ length (connections s') ∧
    ∀ k x, connections s !! k = Some x →
      ∃ x', connections s' !! k = Some x' ∧ idx x' = idx x.
Proof.
  intros Hrun. pose proof (wf_reachable _ _ _ Hrun) as Hwf.
  destruct (run_grows _ _ _ (wf_init config) Hrun) as (Hlim & _ & _).
  destruct Hwf as [Hc Hq]. split_and!.
  - rewrite <- (wf_size _ Hc). by apply wf_limit.
  - done.
  - by apply wf_idx.
  - intros evs' s' Hrun'.
    destruct (run_grows _ _ _ (conj Hc Hq) Hrun') as (_ & Hlen & _).
    split; [done|]. intros k x Hx.
    destruct (lookup_lt_is_Some_2 (connections s') k) as [x' Hx'].
    { apply lookup_lt_Some in Hx. lia. }
    exists x'. split; [done|].
    assert (wf s') as [Hc' _] by (eapply wf_run; [|done]; by split).
    rewrite (wf_idx _ Hc _ _ Hx). by apply (wf_idx _ Hc').
Qed.

(** *** The wait queue is served first come, first served *)

Lemma before_sublist {A} (l k : list A) a b :
  l `sublist_of` k → before l a b → before k a b.
Proof.
  intros Hsub. revert a b.
  induction Hsub as [|x l k Hsub IH|x l k Hsub IH]; intros a b (i & j & Hij & Hi & Hj).
  - done.
  - destruct j as [|j]; [lia|]. destruct i as [|i]; simpl in *.
    + assert (b ∈ k) as [j' Hj']%list_elem_of_lookup.
      { eapply (sublist_subseteq _ _ Hsub). by eapply list_elem_of_lookup_2. }
      exists 0, (S j'). split_and!; [lia|done..].
    + destruct (IH a b) as (i' & j' & ? & ? & ?); [exists i, j; split_and!; [lia|done..]|].
      exists (S i'), (S j'). split_and!; [lia|done..].
  - destruct (IH a b) as (i' & j' & ? & ? & ?); [by exists i, j|].
    exists (S i'), (S j'). split_and!; [lia|done..].
Qed.

Lemma before_total {A} (l : list A) a b :
  a ∈ l → b ∈ l → a ≠ b → before l a b ∨ before l b a.
Proof.
  intros [i Hi]%list_elem_of_lookup [j Hj]%list_elem_of_lookup Hne.
  destruct (decide (i < j)); [left; by exists i, j|].
  right. exists j, i. split_and!; [|done..].
  assert (i ≠ j) by (intros ->; congruence). lia.
Qed.

Lemma before_asym {A} (l : list A) a b :
  NoDup l → before l a b → before l b a → False.
Proof.
  intros Hnd (i & j & Hij & Hi & Hj) (i' & j' & Hij' & Hi' & Hj').
  pose proof (NoDup_lookup _ _ _ _ Hnd Hi Hj').
  pose proof (NoDup_lookup _ _ _ _ Hnd Hj Hi'). lia.
Qed.

Lemma before_ne {A} (l : list A) a b : NoDup l → before l a b → a ≠ b.
Proof.
  intros Hnd (i & j & Hij & Hi & Hj) ->.
  pose proof (NoDup_lookup _ _ _ _ Hnd Hi Hj). lia.
Qed.

Lemma fulfilled_sublist tr : fulfilled tr `sublist_of` served tr.
Proof.
  induction tr as [|o tr IH]; [done|].
  destruct o; simpl; try done; by constructor.
Qed.

Lemma fulfilled_sublist_pushes s :
  wf s → fulfilled (trace s) `sublist_of` pushes (trace s).
Proof.
  intros [Hc _]. rewrite (wf_served _ Hc).
  etrans; [apply fulfilled_sublist|]. by apply sublist_inserts_r.
Qed.

(** C2. The entries served so far are the first entries pushed, in
    the order they were pushed, and nothing else is still queued.  So
    of two calls whose entries were pushed one after the other and
    which were both fulfilled, the one pushed first was fulfilled
    first; and no entry is served, let alone fulfilled, twice. *)
Theorem fifo_service (config : option nat) (evs : list Event) (s : State) :
  run (RedisConnectionPool config) evs = Some s →
  pushes (trace s) = served (trace s) ++ queue s ∧
  NoDup (served (trace s)) ∧
  NoDup (fulfilled (trace s)) ∧
  ∀ a b, before (pushes (trace s)) a b →
         a ∈ fulfilled (trace s) → b ∈ fulfilled (trace s) →
         before (fulfilled (trace s)) a b.
Proof.
  intros Hwf%wf_reachable.
  pose proof (fulfilled_sublist_pushes s Hwf) as Hsub.
  pose proof (wf_nodup _ (proj1 Hwf)) as Hnd.
  pose proof (wf_served _ (proj1 Hwf)) as Hserved. split_and!.
  - done.
  - rewrite Hserved in Hnd. by apply NoDup_app in Hnd as (? & _ & _).
  - by eapply sublist_NoDup.
  - intros a b Hab Ha Hb.
    destruct (before_total (fulfilled (trace s)) a b) as [|Hba]; [done..| |done|].
    + by eapply before_ne.
    + destruct (before_asym _ a b Hnd Hab). by eapply before_sublist.
Qed.

(** *** Teardown *)

Lemma foldl_settle_other (f : nat → Task) q : ∀ ts j,
  j ∉ q → foldl (λ ts w, settle w (f w) ts) ts q !! j = ts !! j.
Proof.
  induction q as [|w q IH]; intros ts j Hj; simpl; [done|].
  apply not_elem_of_cons in Hj as [Hne Hj].
  rewrite IH by done. by apply settle_lookup_other.
Qed.

Lemma foldl_settle_hit (f : nat → Task) q : ∀ ts j,
  NoDup q → j ∈ q → ts !! j = Some AwaitRelease →
  foldl (λ ts w, settle w (f w) ts) ts q !! j = Some (f j).
Proof.
  induction q as [|w q IH]; intros ts j Hnd Hj Hts; simpl.
  - by apply elem_of_nil in Hj.
  - apply NoDup_cons in Hnd as [Hw Hnd].
    apply elem_of_cons in Hj as [->|Hj].
    + rewrite foldl_settle_other by done. by apply settle_pending.
    + apply IH; [done..|]. rewrite settle_lookup_other; [done|].
      by intros ->.
Qed.

Lemma getConnection_not_failed s :
  ∃ s' t, step s GetConnection = Some s' ∧
          tasks s' !! length (tasks s) = Some t ∧ not_failed t.
Proof.
  destruct (find_avail (connections s)) as [[k x]|] eqn:Hfind.
  - rewrite (step_GetConnection_old _ _ _ Hfind).
    eexists _, _. split; [done|]. simpl. rewrite got_tasks.
    rewrite lookup_app_r, Nat.sub_diag by done. split; [done|].
    apply find_avail_Some in Hfind as [Hx _].
    unfold got_task. rewrite Hx. by destruct (broken x).
  - destruct (decide (size s < connectionLimit s)) as [Hlt|Hge].
    + rewrite step_GetConnection_new by done.
      eexists _, _. split; [done|]. simpl.
      by rewrite lookup_app_r, Nat.sub_diag.
    + rewrite step_GetConnection_wait by done.
      eexists _, _. split; [done|]. simpl.
      by rewrite lookup_app_r, Nat.sub_diag.
Qed.

(** C3, amended. [emptyQueue()] empties the wait queue and rejects
    every call that was waiting with the ConnectionError "No live TCP
    connection", which that call's [getConnection()] then fails with;
    the connections and the size are untouched.  The pool keeps no
    mark of having been torn down: a later [getConnection()] is served
    as on any pool and is not failed. *)
Theorem teardown_rejects_waiters (config : option nat) (evs : list Event) (s : State) :
  run (RedisConnectionPool config) evs = Some s →
  ∃ s', step s EmptyQueue = Some s' ∧
    queue s' = [] ∧ connections s' = connections s ∧ size s' = size s ∧
    (∀ w, w ∈ queue s →
       tasks s' !! w = Some (Rejected no_live_connection) ∧
       Rej w no_live_connection ∈ trace s' ∧
       ∃ s'', step s' (Resume w) = Some s'' ∧
              tasks s'' !! w = Some (Failed no_live_connection)) ∧
    ∃ s'' t, step s' GetConnection = Some s'' ∧
             tasks s'' !! length (tasks s') = Some t ∧ not_failed t.
Proof.
  intros Hwf%wf_reachable. exists (rejected_all s).
  split; [apply step_EmptyQueue|]. split_and!; try done.
  - intros w Hw.
    assert (tasks (rejected_all s) !! w = Some (Rejected no_live_connection)) as Ht.
    { simpl. apply (foldl_settle_hit (λ _, Rejected no_live_connection));
        [by apply wf_core_queue_nodup, Hwf|done|by apply (wf_queue _ (proj1 Hwf))]. }
    split_and!; [done| |].
    + simpl. apply elem_of_app. right. apply list_elem_of_fmap. eauto.
    + rewrite (step_Resume_rejected _ _ _ Ht). eexists. split; [done|].
      simpl. apply list_lookup_insert_eq. by eapply lookup_lt_Some.
  - apply getConnection_not_failed.
Qed.

(** C3 as worded fails: call 1 waits and is rejected by the teardown;
    call 0 then releases connection 0, and call 2, made after the
    teardown, finds it free and is given it. *)
Lemma teardown_as_stated_fails : ¬ teardown_as_stated.
Proof.
  intros H.
  by apply (H (Some 1) [GetConnection; Settle 0 None; GetConnection]
              [Resume 1; Release 0; GetConnection]
              (mkState [1] [mkPoolConnection 0 false false 1] 1 1
                 [Holding 0; AwaitRelease] [Push 1])
              (mkState [] [mkPoolConnection 0 false false 1] 1 1
                 [Released 0; Failed no_live_connection; Holding 0]
                 [Push 1; Rej 1 no_live_connection; Emit 0])
              eq_refl eq_refl 2 0 (le_n 2)).
Qed.

(** *** Releasing what one does not hold *)

Lemma alter_same {A} (f : A → A) (l : list A) i x :
  l !! i = Some x → f x = x → alter f i l = l.
Proof.
  intros Hx Hf. apply list_eq. intros j.
  destruct (decide (i = j)) as [->|?].
  - by rewrite list_lookup_alter_eq, Hx; simpl; rewrite Hf.
  - by rewrite list_lookup_alter_ne.
Qed.

Lemma emitted_empty i s :
  queue s = [] → emitted i s = upd_trace (λ t, t ++ [Emit i]) s.
Proof.
  intros Hq. unfold emitted, notified. simpl. rewrite Hq. by case_match.
Qed.

Lemma emitted_serves i s y w q' :
  connections s !! i = Some y → free y = true ∨ broken y = true →
  queue s = w :: q' →
  emitted i s = handoff i w q' (upd_trace (λ t, t ++ [Emit i]) s).
Proof.
  intros Hy Hfb Hq. unfold emitted, notified. simpl. rewrite Hy, Hq.
  by destruct Hfb as [-> | ->]; rewrite ?andb_false_r.
Qed.

(** C4, amended. [release()] checks nothing.  On a connection whose
    [free] flag is already set it changes neither the queue nor the
    connections and serves nobody, for then nobody waits.  On any
    other connection, whoever holds it, it hands the connection to the
    call at the head of the queue, or sets [free] when nobody waits. *)
Theorem release_unconditional (config : option nat) (evs : list Event)
    (s : State) (c : nat) (t : Task) (i : nat) (x : PoolConnection) :
  run (RedisConnectionPool config) evs = Some s →
  tasks s !! c = Some t → in_hand t = Some i → connections s !! i = Some x →
  ∃ s', step s (Release c) = Some s' ∧
    (free x = true →
       queue s' = queue s ∧ connections s' = connections s ∧
       tasks s' = <[c := Released i]> (tasks s)) ∧
    (free x = false →
       (queue s = [] →
          connections s' !! i = Some (set_free true x) ∧
          tasks s' = <[c := Released i]> (tasks s)) ∧
       (∀ w q', queue s = w :: q' →
          queue s' = q' ∧
          connections s' !! i = Some (set_free false x) ∧
          tasks s' !! w = Some (Resolved i))).
Proof.
  intros Hwf%wf_reachable Hc Ht Hx.
  rewrite (step_Release s c t i Hc Ht) by by rewrite Hx.
  eexists. split; [done|].
  assert (connections (upd_connections (alter (set_free true) i)
            (upd_tasks (<[c := Released i]>) s)) !! i = Some (set_free true x))
    as Hx1 by (by apply lookup_alter_Some).
  assert (free x = true → queue s = []) as Hidle.
  { intros Hf. destruct (queue s) eqn:Hq; [done|].
    destruct Hwf as [_ Hquiet].
    rewrite (Hquiet ltac:(by rewrite Hq) i x) in Hf; done. }
  split.
  - intros Hf. rewrite emitted_empty by by apply Hidle.
    simpl. split_and!; try done.
    apply alter_same with x; [done|]. destruct x; simpl in *; by subst.
  - intros Hf. split.
    + intros Hq. by rewrite emitted_empty.
    + intros w q' Hq.
      rewrite (emitted_serves i _ _ w q' Hx1) by (by try left).
      simpl. split_and!; [done| |].
      * rewrite list_alter_alter_eq. by apply lookup_alter_Some.
      * assert (tasks s !! w = Some AwaitRelease) as Hw.
        { apply (wf_queue _ (proj1 Hwf)). rewrite Hq. by left. }
        apply settle_pending. rewrite list_lookup_insert_ne; [done|].
        intros ->. apply in_hand_slot_of in Ht as [_ ?]. congruence.
Qed.

(** C4 as worded fails: the second [release()] of call 0 hands
    connection 0, which call 1 holds, to call 2 as well. *)
Lemma release_misuse_as_stated_fails : ¬ release_misuse_as_stated.
Proof.
  intros H.
  specialize (H (Some 1)
    [GetConnection; Settle 0 None; GetConnection; GetConnection;
     Release 0; Resume 1]
    (mkState [2] [mkPoolConnection 0 false false 1] 1 1
       [Released 0; Holding 0; AwaitRelease]
       [Push 1; Push 2; Emit 0; Res 1 0])
    (mkState [] [mkPoolConnection 0 false false 1] 1 1
       [Released 0; Holding 0; Resolved 0]
       [Push 1; Push 2; Emit 0; Res 1 0; Emit 0; Res 2 0])
    0 0 eq_refl eq_refl eq_refl 1 2 eq_refl eq_refl).
  discriminate H.
Qed.



(** *** A connection nobody refers to *)

Lemma emitted_conn_ne i j s :
  j ≠ i → connections (emitted j s) !! i = connections s !! i.
Proof.
  intros Hne.
  destruct (emitted_cases j s) as [->|(x & w & q' & _ & _ & _ & ->)]; [done|].
  simpl. by rewrite list_lookup_alter_ne.
Qed.

Lemma broke_conn_ne i j s :
  j ≠ i → connections (broke j s) !! i = connections s !! i.
Proof. intros Hne. simpl. by rewrite list_lookup_alter_ne. Qed.

Lemma got_conn_ne i k s :
  k ≠ i → connections (got k s) !! i = connections s !! i.
Proof.
  intros Hne. unfold got. repeat case_match; simpl;
    by rewrite ?list_lookup_alter_ne.
Qed.

Lemma unref_insert ts i c t :
  unreferenced ts i → slot_of t ≠ Some i → unreferenced (<[c := t]> ts) i.
Proof.
  intros H Ht c' t' [(-> & -> & _)|(_ & ?)]%list_lookup_insert_Some; eauto.
Qed.

Lemma unref_app ts i t :
  unreferenced ts i → slot_of t ≠ Some i → unreferenced (ts ++ [t]) i.
Proof.
  intros H Ht c' t' [?|(_ & Hl)]%lookup_app_Some; [by eauto|].
  by apply list_lookup_singleton_Some in Hl as [_ <-].
Qed.

Lemma unref_settle ts i w t :
  unreferenced ts i → slot_of t ≠ Some i → unreferenced (settle w t ts) i.
Proof.
  intros H Ht c' t' [?|(-> & -> & _)]%settle_lookup_inv; eauto.
Qed.

Lemma unref_lose ts i j :
  unreferenced ts i → unreferenced (lose j <$> ts) i.
Proof.
  intros H c t. rewrite list_lookup_fmap.
  destruct (ts !! c) as [t0|] eqn:Hc; [|done]. intros [= <-].
  rewrite lose_slot_of. eauto.
Qed.

Lemma unref_emitted s i j :
  unreferenced (tasks s) i → j ≠ i → unreferenced (tasks (emitted j s)) i.
Proof.
  intros H Hne.
  destruct (emitted_cases j s) as [->|(x & w & q' & _ & _ & _ & ->)]; [done|].
  simpl. apply unref_settle; [done|]. simpl. congruence.
Qed.

Lemma unref_rejected_all s i :
  unreferenced (tasks s) i → unreferenced (tasks (rejected_all s)) i.
Proof.
  intros H c t [?|(_ & ->)]%foldl_settle_inv; [by eauto|done].
Qed.

Lemma abandoned_transition s ev s' i :
  abandoned i s → transition s ev s' → ev ≠ ServerBroken i → abandoned i s'.
Proof.
  intros [(y & Hy & Hf & Hb) Hun] Htr Hev.
  assert (∀ c t j, tasks s !! c = Some t → slot_of t = Some j → j ≠ i) as Hne
    by (intros c t j Hc Hs ->; by eapply Hun).
  destruct Htr as [k x Hfind|Hfind Hlt|Hfind Hge|c j Hc|c j e Hc Hj He|c j e Hc Hj He
         |c j Hc Hj|c e Hc|c t j Hc Ht Hj|c t j e Hc Ht Hj He|c t j r Hc Ht Hj Hr
         |j Hj|].
  - apply find_avail_Some in Hfind as [Hx Ha].
    assert (k ≠ i) as Hk.
    { intros ->. rewrite Hy in Hx. injection Hx as <-.
      unfold avail in Ha. by rewrite Hf, Hb in Ha. }
    split.
    + exists y. simpl. by rewrite got_conn_ne.
    + simpl. rewrite got_tasks. apply unref_app; [done|].
      intros ->%got_task_slot; [done|by rewrite Hx].
  - split; simpl.
    + exists y. by rewrite (lookup_app_l_Some _ _ _ _ Hy).
    + apply unref_app; [done|]. simpl. apply lookup_lt_Some in Hy.
      intros [= ?]. lia.
  - split; simpl; [by eauto|]. by apply unref_app.
  - assert (j ≠ i) by (destruct Hc as [Hc|Hc]; by eapply Hne).
    split; simpl; [by eauto|]. apply unref_insert; [done|]. simpl. congruence.
  - assert (j ≠ i) by (destruct Hc as [Hc|Hc]; by eapply Hne).
    split; simpl.
    + exists y. by rewrite emitted_conn_ne, broke_conn_ne.
    + apply unref_insert; [|done]. apply unref_emitted; [|done].
      by apply unref_lose.
  - split; simpl; [by eauto|]. by apply unref_insert.
  - assert (j ≠ i) by by eapply Hne.
    split; simpl.
    + exists y. by rewrite got_conn_ne.
    + rewrite got_tasks. apply unref_insert; [done|].
      intros ->%got_task_slot; [done|by apply lookup_lt_is_Some].
  - split; simpl; [by eauto|]. by apply unref_insert.
  - assert (j ≠ i) by (apply in_hand_slot_of in Ht as [Hs _]; by eapply Hne).
    split.
    + exists y. rewrite emitted_conn_ne by done. simpl.
      by rewrite list_lookup_alter_ne.
    + apply unref_emitted; [|done]. simpl. apply unref_insert; [done|].
      simpl. congruence.
  - assert (j ≠ i) by (apply in_hand_slot_of in Ht as [Hs _]; by eapply Hne).
    split.
    + exists y. by rewrite emitted_conn_ne, broke_conn_ne.
    + apply unref_emitted; [|done]. by apply unref_lose.
  - split; by eauto.
  - assert (j ≠ i) by congruence.
    split.
    + exists y. by rewrite emitted_conn_ne, broke_conn_ne.
    + apply unref_emitted; [|done]. by apply unref_lose.
  - split; [by eauto|]. by apply unref_rejected_all.
Qed.

Lemma foldl_settle_keeps (f : nat → Task) q : ∀ ts c t,
  ts !! c = Some t → t ≠ AwaitRelease →
  foldl (λ ts w, settle w (f w) ts) ts q !! c = Some t.
Proof.
  induction q as [|w q IH]; intros ts c t Hc Hne; simpl; [done|].
  apply IH; [|done]. by apply settle_keeps.
Qed.

Lemma failed_transition s ev s' c e :
  tasks s !! c = Some (Failed e) → transition s ev s' →
  tasks s' !! c = Some (Failed e).
Proof.
  intros Hc Htr.
  assert (∀ c' t', tasks s !! c' = Some t' → t' ≠ Failed e →
            ∀ (ts : list Task) tn, ts !! c = Some (Failed e) →
              <[c' := tn]> ts !! c = Some (Failed e))
    as Hins.
  { intros c' t' Hc' Hne ts tn Hts. rewrite list_lookup_insert_ne; [done|].
    intros ->. congruence. }
  assert (∀ j s0, tasks s0 !! c = Some (Failed e) →
            tasks (emitted j (broke j s0)) !! c = Some (Failed e)) as Hbr.
  { intros j s0 H0. apply emitted_task; [|done].
    by apply (broke_task j s0 c (Failed e)). }
  destruct Htr as [k x Hfind|Hfind Hlt|Hfind Hge|c' j Hc'|c' j e' Hc' Hj He|c' j e' Hc' Hj He
         |c' j Hc' Hj|c' e' Hc'|c' t j Hc' Ht Hj|c' t j e' Hc' Ht Hj He|c' t j r Hc' Ht Hj Hr
         |j Hj|]; simpl; rewrite ?got_tasks; try done.
  - by apply lookup_app_l_Some.
  - by apply lookup_app_l_Some.
  - by apply lookup_app_l_Some.
  - destruct Hc' as [Hc'|Hc']; by eapply Hins.
  - destruct Hc' as [Hc'|Hc']; (eapply Hins; [done|done|]); by apply Hbr.
  - destruct Hc' as [Hc'|Hc']; by eapply Hins.
  - by eapply Hins.
  - by eapply Hins.
  - apply emitted_task; [|done]. simpl. eapply Hins; [done| |done].
    intros ->. done.
  - by apply Hbr.
  - by apply Hbr.
  - by apply foldl_settle_keeps.
Qed.

Lemma abandoned_run evs : ∀ s s' i c e,
  wf s → abandoned i s → tasks s !! c = Some (Failed e) →
  ServerBroken i ∉ evs → run s evs = Some s' →
  abandoned i s' ∧ tasks s' !! c = Some (Failed e) ∧ size s ≤ size s'.
Proof.
  induction evs as [|ev evs IH]; intros s s' i c e Hwf Hab Hc Hev Hrun;
    simpl in Hrun.
  - by injection Hrun as <-.
  - destruct (step s ev) as [s1|] eqn:Hstep; [|done]. simpl in Hrun.
    apply not_elem_of_cons in Hev as [Hne Hev].
    pose proof (step_inv _ _ _ Hwf Hstep) as Htr.
    destruct (IH s1 s' i c e) as (? & ? & ?);
      [by eapply wf_step|by eapply abandoned_transition
      |by eapply failed_transition|done..|].
    split_and!; [done..|].
    destruct (transition_grows _ _ _ Htr) as (_ & _ & ?). lia.
Qed.

(** C9, amended. When the first initialization of a new connection
    fails with an error that is not a ConnectionError, the call is
    rejected with that error, and the connection stays in the pool,
    neither free nor broken, with [size] counting it.  As long as no
    end event of that connection arrives, it stays so and no call ever
    refers to it again, whatever else happens to the pool. *)
Theorem capacity_loss (config : option nat) (evs0 : list Event) (s : State) (e : JsError) :
  run (RedisConnectionPool config) evs0 = Some s →
  find_avail (connections s) = None → size s < connectionLimit s →
  is_ConnectionError e = false →
  let c := length (tasks s) in
  let i := length (connections s) in
  ∃ s2, run s [GetConnection; Settle c (Some e)] = Some s2 ∧
    ∀ evs s', ServerBroken i ∉ evs → run s2 evs = Some s' →
      tasks s' !! c = Some (Failed e) ∧
      (∃ x, connections s' !! i = Some x ∧ free x = false ∧ broken x = false) ∧
      S (size s) ≤ size s' ∧
      ∀ c' t, tasks s' !! c' = Some t → slot_of t ≠ Some i.
Proof.
  intros Hwf%wf_reachable Hfind Hlt He c i.
  set (s1 := mkState (queue s) (connections s ++ [newly i]) (S (size s))
               (connectionLimit s) (tasks s ++ [AwaitInit i]) (trace s)).
  assert (Hc1 : tasks s1 !! c = Some (AwaitInit i))
    by (subst s1 c; simpl; by rewrite lookup_app_r, Nat.sub_diag).
  assert (Hi1 : connections s1 !! i = Some (newly i))
    by (subst s1 i; simpl; by rewrite lookup_app_r, Nat.sub_diag).
  assert (Hrun2 : run s [GetConnection; Settle c (Some e)] =
                  Some (upd_tasks (<[c := Failed e]>) s1)).
  { cbn [run]. rewrite step_GetConnection_new by done. cbn [mbind option_bind].
    fold i c s1. rewrite (step_Settle_error s1 c i e); [|by left|by rewrite Hi1].
    by rewrite He. }
  eexists. split; [exact Hrun2|].
  intros evs s' Hev Hrun.
  assert (wf (upd_tasks (<[c := Failed e]>) s1)) as Hwf2
    by (eapply wf_run; [exact Hwf|exact Hrun2]).
  assert (tasks (upd_tasks (<[c := Failed e]>) s1) = tasks s ++ [Failed e]) as Hts.
  { subst s1 c. simpl.
    rewrite insert_app_r_alt, Nat.sub_diag by done. done. }
  destruct (abandoned_run evs _ s' i c e Hwf2) as ([Hx Hun] & Hc & Hsz);
    try done.
  - split.
    + exists (newly i). split; [exact Hi1|done].
    + rewrite Hts. apply unref_app; [|done].
      intros c' t Hc' Hs. apply (wf_slots _ (proj1 Hwf) c') in Hs; [|done].
      subst i. lia.
  - rewrite Hts. subst c. by rewrite lookup_app_r, Nat.sub_diag.
Qed.

(** *** Exclusive ownership

    [handleServerBroken()] and [handleExecuteError()] put a connection
    back into circulation, by setting [broken] and emitting "release",
    while the call that was given it still has it; that call later
    calls [release()], "the method client should call after finishing
    the query", which sets [free] and emits "release" again without
    looking at anything.  The connection then goes out twice. *)

(** C1. The pool gives one connection to two calls at once.  In the
    first run call 0 is given connection 0, whose link then breaks;
    call 1 picks the broken connection and awaits its repair; call 0
    releases it; call 2 finds it free and is given it; the repair
    completes and call 1 is given it as well.  In the second run calls
    1 and 2 wait for the pool's only connection; an [execute()] of
    call 0 fails with a ConnectionError, which hands the connection to
    call 1, who awaits its repair; call 0 then releases it, which hands
    it to call 2; the repair completes and call 1 is given it too.  At
    the end of either run calls 1 and 2 both hold connection 0, which
    neither has released and whose link has not broken since. *)
Theorem exclusive_ownership_violated :
  run (RedisConnectionPool (Some 1))
    [GetConnection; Settle 0 None; ServerBroken 0; GetConnection;
     Release 0; GetConnection; Settle 1 None] =
  Some (mkState [] [mkPoolConnection 0 false false 2] 1 1
          [Released 0; Holding 0; Holding 0] [Emit 0; Emit 0]) ∧
  run (RedisConnectionPool (Some 1))
    [GetConnection; Settle 0 None; GetConnection; GetConnection;
     Execute 0 (inl (ConnectionError "read ECONNRESET"));
     Resume 1; Release 0; Resume 2; Settle 1 None] =
  Some (mkState [] [mkPoolConnection 0 false false 2] 1 1
          [Released 0; Holding 0; Holding 0]
          [Push 1; Push 2; Emit 0; Res 1 0; Emit 0; Res 2 0]).
Proof. split; reflexivity. Qed.

(** C9 as worded fails: an end event of the abandoned connection marks
    it broken, and the next call picks it for repair. *)
Lemma capacity_loss_as_stated_fails : ¬ capacity_loss_as_stated.
Proof.
  intros H.
  destruct (H (Some 1) [] (RedisConnectionPool (Some 1))
              (OtherError "ReplyError" "NOAUTH Authentication required")
              [ServerBroken 0; GetConnection]
              (mkState [] [mkPoolConnection 0 false false 2] 1 1
                 [Failed (OtherError "ReplyError" "NOAUTH Authentication required");
                  AwaitRepair 0] [Emit 0])
              eq_refl eq_refl ltac:(simpl; lia) eq_refl eq_refl)
    as (_ & _ & _ & Hun).
  by apply (Hun 1 (AwaitRepair 0)).
Qed.

(** *** The bookkeeping is inert *)

Lemma forget_state_eq s1 s2 :
  forget_state s1 = forget_state s2 ↔
  queue s1 = queue s2 ∧ connections s1 = connections s2 ∧ size s1 = size s2 ∧
  connectionLimit s1 = connectionLimit s2 ∧ trace s1 = trace s2 ∧
  forget <$> tasks s1 = forget <$> tasks s2.
Proof.
  destruct s1, s2. unfold forget_state, upd_tasks. simpl. split.
  - intros [= -> -> -> -> ? ->]. by split_and!.
  - intros (-> & -> & -> & -> & -> & ->). done.
Qed.

Lemma inert_ret {A} (a : A) : inert (mret a).
Proof. by intros s1 s2 H. Qed.

Lemma inert_throw {A} e : inert (@throw A e).
Proof. by intros s1 s2 H. Qed.

Lemma inert_stuck {A} : inert (@stuck A).
Proof. by intros s1 s2 H. Qed.

Lemma inert_gets {A} (f : State → A) :
  (∀ s1 s2, forget_state s1 = forget_state s2 → f s1 = f s2) → inert (gets f).
Proof. intros Hf s1 s2 H. unfold gets. split; [f_equal; by apply Hf|done]. Qed.

Lemma inert_modify f :
  (∀ s1 s2, forget_state s1 = forget_state s2 →
            forget_state (f s1) = forget_state (f s2)) →
  inert (modify f).
Proof. intros Hf s1 s2 H. unfold modify. split; [done|by apply Hf]. Qed.

Lemma inert_bind {A B} (m : M A) (f : A → M B) :
  inert m → (∀ a, inert (f a)) → inert (m ≫= f).
Proof.
  intros Hm Hf s1 s2 H. specialize (Hm s1 s2 H). unfold mbind, M_bind.
  destruct (m s1) as [[[a1|e1] s1']|], (m s2) as [[[a2|e2] s2']|]; try done;
    destruct Hm as [Ho HR]; try discriminate Ho.
  - injection Ho as <-. exact (Hf a1 s1' s2' HR).
  - injection Ho as <-. by split.
Qed.

Lemma forget_settle w u (ts1 ts2 : list Task) :
  forget <$> ts1 = forget <$> ts2 →
  forget <$> settle w u ts1 = forget <$> settle w u ts2.
Proof.
  intros H. unfold settle.
  assert (forget <$> ts1 !! w = forget <$> ts2 !! w) as Hw
    by (by rewrite <- !list_lookup_fmap, H).
  destruct (ts1 !! w) as [t1|], (ts2 !! w) as [t2|]; simplify_eq/=; [|done].
  destruct t1, t2; simplify_eq/=; try done.
  by rewrite !list_fmap_insert, H.
Qed.

Lemma forget_lose i t : forget (lose i t) = forget t.
Proof. destruct t; simpl; try done. by case_decide. Qed.

Lemma forget_lose_fmap i (ts1 ts2 : list Task) :
  forget <$> ts1 = forget <$> ts2 →
  forget <$> (lose i <$> ts1) = forget <$> (lose i <$> ts2).
Proof.
  intros H. rewrite <- !list_fmap_compose.
  rewrite !(list_fmap_ext (forget ∘ lose i) forget ts1),
          !(list_fmap_ext (forget ∘ lose i) forget ts2); [done|..];
    intros; simpl; apply forget_lose.
Qed.

Ltac inert_frame :=
  let H := fresh in
  intros ?? H; apply forget_state_eq in H as (? & ? & ? & ? & ? & ?);
  apply forget_state_eq; simpl; split_and!; try congruence.

Ltac inert_step :=
  first
    [ apply inert_ret
    | apply inert_throw
    | apply inert_stuck
    | apply inert_bind; [|intros ?]
    | apply inert_gets;
      let H := fresh in
      intros ?? H; apply forget_state_eq in H as (? & ? & ? & ? & ? & ?); congruence
    | apply inert_modify; inert_frame
    | case_match ].

Lemma inert_log o : inert (log o).
Proof. unfold log. repeat inert_step. Qed.

Lemma inert_res w i : inert (res w i).
Proof.
  unfold res. apply inert_bind; [|intros; apply inert_log].
  apply inert_modify. inert_frame. by apply forget_settle.
Qed.

Lemma inert_rej w e : inert (rej w e).
Proof.
  unfold rej. apply inert_bind; [|intros; apply inert_log].
  apply inert_modify. inert_frame. by apply forget_settle.
Qed.

Lemma inert_queueHandler i : inert (queueHandler i).
Proof. unfold queueHandler. repeat (apply inert_res || inert_step). Qed.

Lemma inert_emit i : inert (emit i).
Proof. unfold emit. repeat (apply inert_log || apply inert_queueHandler || inert_step). Qed.

Lemma inert_mark_broken i : inert (mark_broken i).
Proof.
  unfold mark_broken. apply inert_bind; [repeat inert_step|intros _].
  apply inert_modify. inert_frame. by apply forget_lose_fmap.
Qed.

Lemma inert_handleServerBroken i : inert (handleServerBroken i).
Proof.
  unfold handleServerBroken.
  apply inert_bind; [apply inert_mark_broken|intros; apply inert_emit].
Qed.

Lemma inert_release i : inert (release i).
Proof. unfold release. repeat (apply inert_emit || inert_step). Qed.

Lemma inert_handleExecuteError i e : inert (handleExecuteError i e).
Proof.
  unfold handleExecuteError.
  repeat (apply inert_emit || apply inert_mark_broken || inert_step).
Qed.

Lemma inert_execute i r : inert (execute i r).
Proof.
  unfold execute, try_await.
  repeat (apply inert_handleExecuteError || inert_step).
Qed.

Lemma inert_initialize_settled i r : inert (initialize_settled i r).
Proof.
  unfold initialize_settled, try_await.
  repeat (apply inert_handleExecuteError || inert_step).
Qed.

Lemma inert_getOldConnection_got k : inert (getOldConnection_got k).
Proof. unfold getOldConnection_got, initialize_start. repeat inert_step. Qed.

Lemma inert_getConnection c : inert (getConnection c).
Proof.
  unfold getConnection, getNewConnection, getOldConnection, waitForRelease,
    initialize_start.
  repeat (apply inert_log || apply inert_getOldConnection_got || inert_step).
Qed.

Lemma inert_emptyQueue : inert emptyQueue.
Proof.
  unfold emptyQueue. apply inert_bind; [repeat inert_step|].
  intros q. induction q as [|w q IH]; simpl; [apply inert_ret|].
  repeat (apply inert_rej || apply IH || inert_step).
Qed.

Lemma inert_as_task m s1 s2 :
  inert m → forget_state s1 = forget_state s2 →
  match as_task m s1, as_task m s2 with
  | Some (t1, s1'), Some (t2, s2') => t1 = t2 ∧ forget_state s1' = forget_state s2'
  | None, None => True
  | _, _ => False
  end.
Proof.
  intros Hm H. specialize (Hm s1 s2 H). unfold as_task.
  destruct (m s1) as [[[a1|e1] s1']|], (m s2) as [[[a2|e2] s2']|]; try done;
    destruct Hm as [Ho HR]; try discriminate Ho; by injection Ho as <-.
Qed.

Lemma inert_effect {A} (m : M A) s1 s2 :
  inert m → forget_state s1 = forget_state s2 →
  match effect m s1, effect m s2 with
  | Some s1', Some s2' => forget_state s1' = forget_state s2'
  | None, None => True
  | _, _ => False
  end.
Proof.
  intros Hm H. specialize (Hm s1 s2 H). unfold effect.
  destruct (m s1) as [[o1 s1']|], (m s2) as [[o2 s2']|]; try done.
  by destruct Hm.
Qed.

Lemma forget_insert c t s1 s2 :
  forget_state s1 = forget_state s2 →
  forget_state (upd_tasks (<[c := t]>) s1) = forget_state (upd_tasks (<[c := t]>) s2).
Proof.
  intros (? & ? & ? & ? & ? & Ht)%forget_state_eq.
  apply forget_state_eq; simpl. split_and!; try done.
  by rewrite !list_fmap_insert, Ht.
Qed.

Lemma forget_spawn t s1 s2 :
  forget_state s1 = forget_state s2 →
  forget_state (upd_tasks (λ ts, ts ++ [t]) s1) =
  forget_state (upd_tasks (λ ts, ts ++ [t]) s2).
Proof.
  intros (? & ? & ? & ? & ? & Ht)%forget_state_eq.
  apply forget_state_eq; simpl. split_and!; try done.
  by rewrite !fmap_app, Ht.
Qed.

Lemma forget_lookup c s1 s2 :
  forget_state s1 = forget_state s2 →
  forget <$> tasks s1 !! c = forget <$> tasks s2 !! c.
Proof.
  intros (_ & _ & _ & _ & _ & Ht)%forget_state_eq.
  by rewrite <- !list_lookup_fmap, Ht.
Qed.

Lemma forget_in_hand t1 t2 : forget t1 = forget t2 → in_hand t1 = in_hand t2.
Proof. destruct t1, t2; simpl; congruence. Qed.

(** Whether a call holds its connection, has lost it or has released
    it makes no difference to what the pool does: from two states
    that differ in this only, every event leads to two states that
    differ in this only, or is impossible in both. *)
Theorem bookkeeping_inert (s1 s2 : State) (ev : Event) :
  forget_state s1 = forget_state s2 →
  match step s1 ev, step s2 ev with
  | Some s1', Some s2' => forget_state s1' = forget_state s2'
  | None, None => True
  | _, _ => False
  end.
Proof.
  intros H. pose proof (forget_lookup) as Hl.
  destruct ev as [|c r|c|c|c r|i|]; simpl.
  - assert (length (tasks s1) = length (tasks s2)) as ->.
    { apply forget_state_eq in H as (_ & _ & _ & _ & _ & Ht).
      by rewrite <- (length_fmap forget (tasks s1)), Ht, length_fmap. }
    pose proof (inert_as_task _ s1 s2 (inert_getConnection (length (tasks s2))) H) as Hm.
    destruct (as_task _ s1) as [[t1 s1']|], (as_task _ s2) as [[t2 s2']|];
      simpl; try done.
    destruct Hm as [<- HR]. by apply forget_spawn.
  - specialize (Hl c s1 s2 H).
    destruct (tasks s1 !! c) as [t1|], (tasks s2 !! c) as [t2|];
      simpl in Hl; try discriminate Hl; [|done]. injection Hl as Hl.
    destruct t1 as [i0| |i0|e0|i0|i0|i0|i0|e0], t2; simpl in Hl;
      try discriminate Hl; try done; injection Hl as <-.
    + pose proof (inert_as_task _ s1 s2
        (inert_bind _ _ (inert_initialize_settled i0 r) (λ _, inert_ret (Holding i0))) H) as Hm.
      destruct (as_task _ s1) as [[t1 s1']|], (as_task _ s2) as [[t2 s2']|];
        simpl; try done.
      destruct Hm as [<- HR]. by apply forget_insert.
    + pose proof (inert_as_task _ s1 s2
        (inert_bind _ _ (inert_initialize_settled i0 r) (λ _, inert_ret (Holding i0))) H) as Hm.
      destruct (as_task _ s1) as [[t1 s1']|], (as_task _ s2) as [[t2 s2']|];
        simpl; try done.
      destruct Hm as [<- HR]. by apply forget_insert.
  - specialize (Hl c s1 s2 H).
    destruct (tasks s1 !! c) as [t1|], (tasks s2 !! c) as [t2|];
      simpl in Hl; try discriminate Hl; [|done]. injection Hl as Hl.
    destruct t1 as [i0| |i0|e0|i0|i0|i0|i0|e0], t2; simpl in Hl;
      try discriminate Hl; try done; injection Hl as <-.
    + pose proof (inert_as_task _ s1 s2 (inert_getOldConnection_got i0) H) as Hm.
      destruct (as_task _ s1) as [[t1 s1']|], (as_task _ s2) as [[t2 s2']|];
        simpl; try done.
      destruct Hm as [<- HR]. by apply forget_insert.
    + by apply forget_insert.
  - specialize (Hl c s1 s2 H).
    destruct (tasks s1 !! c) as [t1|], (tasks s2 !! c) as [t2|];
      simpl in Hl; try discriminate Hl; [|done]. injection Hl as Hl. simpl.
    rewrite (forget_in_hand t1 t2) by done.
    destruct (in_hand t2) as [i|]; simpl; [|done].
    apply (inert_effect _ _ _ (inert_release i)). by apply forget_insert.
  - specialize (Hl c s1 s2 H).
    destruct (tasks s1 !! c) as [t1|], (tasks s2 !! c) as [t2|];
      simpl in Hl; try discriminate Hl; [|done]. injection Hl as Hl. simpl.
    rewrite (forget_in_hand t1 t2) by done.
    destruct (in_hand t2) as [i|]; simpl; [|done].
    by apply (inert_effect _ _ _ (inert_execute i r)).
  - by apply (inert_effect _ _ _ (inert_handleServerBroken i)).
  - by apply (inert_effect _ _ _ inert_emptyQueue).
Qed.

(** *** No step is stuck *)

(** In a state a pool can reach, every event that can happen has an
    outcome: no index is ever outside the pool. *)
Lemma step_enabled s ev : wf s → enabled s ev → is_Some (step s ev).
Proof.
  intros Hwf Hen.
  assert (∀ c t i, tasks s !! c = Some t → slot_of t = Some i →
                   is_Some (connections s !! i)) as Hslot.
  { intros c t i Hc Hs. apply lookup_lt_is_Some. by eapply wf_slots; [apply Hwf|..]. }
  destruct ev as [|c r|c|c|c r|i|]; simpl in Hen.
  - destruct (getConnection_not_failed s) as (s' & _ & -> & _). eauto.
  - destruct Hen as [i Hc].
    assert (is_Some (connections s !! i)) by (destruct Hc as [Hc|Hc]; by eapply Hslot).
    destruct r as [e|].
    + rewrite (step_Settle_error s c i e Hc) by done. eauto.
    + rewrite (step_Settle_ok s c i Hc). eauto.
  - destruct Hen as (t & Hc & Ht). destruct t; try done.
    + rewrite (step_Resume_resolved s c i Hc); [eauto|]. by eapply Hslot.
    + rewrite (step_Resume_rejected s c e Hc). eauto.
  - destruct Hen as (t & i & Hc & Ht).
    rewrite (step_Release s c t i Hc Ht); [eauto|].
    apply in_hand_slot_of in Ht as [Hs _]. by eapply Hslot.
  - destruct Hen as (t & i & Hc & Ht).
    rewrite (step_Execute s c t i r Hc Ht); [eauto|].
    apply in_hand_slot_of in Ht as [Hs _]. by eapply Hslot.
  - rewrite step_ServerBroken; [eauto|]. by apply lookup_lt_is_Some.
  - rewrite step_EmptyQueue. eauto.
Qed.

(** *** Instances *)

Lemma fifo_service_witness :
  [1; 2] = [1; 2] ++ [] ∧
  NoDup [1; 2] ∧
  NoDup [1; 2] ∧
  ∀ a b, before [1; 2] a b → a ∈ [1; 2] → b ∈ [1; 2] → before [1; 2] a b.
Proof.
  exact (fifo_service (Some 1)
           [GetConnection; Settle 0 None; GetConnection; GetConnection;
            Release 0; Resume 1; Release 1]
           (mkState [] [mkPoolConnection 0 false false 1] 1 1
              [Released 0; Released 0; Resolved 0]
              [Push 1; Push 2; Emit 0; Res 1 0; Emit 0; Res 2 0])
           eq_refl).
Defined.

Lemma teardown_rejects_waiters_witness :
  ∃ s', step (mkState [1; 2] [mkPoolConnection 0 false false 1] 1 1
                [Holding 0; AwaitRelease; AwaitRelease] [Push 1; Push 2])
          EmptyQueue = Some s' ∧
    queue s' = [] ∧
    connections s' = [mkPoolConnection 0 false false 1] ∧ size s' = 1 ∧
    (∀ w, w ∈ [1; 2] →
       tasks s' !! w = Some (Rejected no_live_connection) ∧
       Rej w no_live_connection ∈ trace s' ∧
       ∃ s'', step s' (Resume w) = Some s'' ∧
              tasks s'' !! w = Some (Failed no_live_connection)) ∧
    ∃ s'' t, step s' GetConnection = Some s'' ∧
             tasks s'' !! length (tasks s') = Some t ∧ not_failed t.
Proof.
  exact (teardown_rejects_waiters (Some 1)
           [GetConnection; Settle 0 None; GetConnection; GetConnection]
           (mkState [1; 2] [mkPoolConnection 0 false false 1] 1 1
              [Holding 0; AwaitRelease; AwaitRelease] [Push 1; Push 2])
           eq_refl).
Defined.

Lemma release_unconditional_witness :
  ∃ s', step (mkState [] [mkPoolConnection 0 false true 1] 1 1 [Released 0] [Emit 0])
          (Release 0) = Some s' ∧
    (true = true →
       queue s' = [] ∧ connections s' = [mkPoolConnection 0 false true 1] ∧
       tasks s' = [Released 0]) ∧
    (true = false →
       (@nil nat = [] →
          connections s' !! 0 = Some (mkPoolConnection 0 false true 1) ∧
          tasks s' = [Released 0]) ∧
       (∀ w q', [] = w :: q' →
          queue s' = q' ∧
          connections s' !! 0 = Some (mkPoolConnection 0 false false 1) ∧
          tasks s' !! w = Some (Resolved 0))).
Proof.
  exact (release_unconditional (Some 1)
           [GetConnection; Settle 0 None; Release 0]
           (mkState [] [mkPoolConnection 0 false true 1] 1 1 [Released 0] [Emit 0])
           0 (Released 0) 0 (mkPoolConnection 0 false true 1)
           eq_refl eq_refl eq_refl eq_refl).
Defined.

Lemma execute_error_discipline_witness :
  ∃ s', execute 0 (inl (ConnectionError "read ECONNRESET"))
          (mkState [] [mkPoolConnection 0 false false 1] 1 1 [Holding 0] []) =
        Some (Throw (ConnectionError "read ECONNRESET"), s') ∧
    (true = true →
       (∃ x', connections s' !! 0 = Some x' ∧ broken x' = true) ∧
       ∃ tr, trace s' = [] ++ Emit 0 :: tr) ∧
    (true = false →
       s' = mkState [] [mkPoolConnection 0 false false 1] 1 1 [Holding 0] []).
Proof.
  exact (execute_error_discipline
           (mkState [] [mkPoolConnection 0 false false 1] 1 1 [Holding 0] [])
           0 (mkPoolConnection 0 false false 1)
           (ConnectionError "read ECONNRESET") eq_refl).
Defined.



Lemma pool_growth_witness :
  length [mkPoolConnection 0 false false 1; mkPoolConnection 1 false false 1] ≤ 2 ∧
  2 = default 10 (Some 2) ∧
  (∀ k x, [mkPoolConnection 0 false false 1; mkPoolConnection 1 false false 1] !! k
          = Some x → idx x = k).
Proof.
  destruct (pool_growth (Some 2)
           [GetConnection; GetConnection; GetConnection]
           (mkState [2] [mkPoolConnection 0 false false 1; mkPoolConnection 1 false false 1]
              2 2 [AwaitInit 0; AwaitInit 1; AwaitRelease] [Push 2])
           eq_refl) as (H1 & H2 & H3 & _).
  exact (conj H1 (conj H2 H3)).
Defined.

Lemma capacity_loss_witness :
  ∃ s2, run (RedisConnectionPool (Some 1))
          [GetConnection; Settle 0 (Some (OtherError "ReplyError" "NOAUTH"))] = Some s2 ∧
    ∀ evs s', ServerBroken 0 ∉ evs → run s2 evs = Some s' →
      tasks s' !! 0 = Some (Failed (OtherError "ReplyError" "NOAUTH")) ∧
      (∃ x, connections s' !! 0 = Some x ∧ free x = false ∧ broken x = false) ∧
      1 ≤ size s' ∧
      ∀ c' t, tasks s' !! c' = Some t → slot_of t ≠ Some 0.
Proof.
  exact (capacity_loss (Some 1) [] (RedisConnectionPool (Some 1))
           (OtherError "ReplyError" "NOAUTH") eq_refl eq_refl
           (le_n 1) eq_refl).
Defined.

(** *** The scenarios of the design document *)

(** One connection, two callers: the second waits, is served by the
    release of the first, and its own release leaves the connection
    free and the queue empty. *)
Example scenario_capacity_one :
  run (RedisConnectionPool (Some 1))
    [GetConnection; Settle 0 None; GetConnection; Release 0; Resume 1; Release 1] =
  Some (mkState [] [mkPoolConnection 0 false true 1] 1 1
          [Released 0; Released 0] [Push 1; Emit 0; Res 1 0; Emit 0]).
Proof. reflexivity. Qed.

(** The link of a held connection breaks while nobody waits: the
    connection stays broken until the next call repairs it and is
    given it. *)
Example scenario_link_lost :
  run (RedisConnectionPool (Some 2))
    [GetConnection; Settle 0 None; ServerBroken 0] =
  Some (mkState [] [mkPoolConnection 0 true false 1] 1 2 [Lost 0] [Emit 0]) ∧
  run (RedisConnectionPool (Some 2))
    [GetConnection; Settle 0 None; ServerBroken 0; GetConnection; Settle 1 None] =
  Some (mkState [] [mkPoolConnection 0 false false 2] 1 2
          [Lost 0; Holding 0] [Emit 0]).
Proof. split; reflexivity. Qed.

(** Teardown with two waiting calls rejects both and leaves the held
    connection alone. *)
Example scenario_teardown :
  run (RedisConnectionPool (Some 1))
    [GetConnection; Settle 0 None; GetConnection; GetConnection;
     EmptyQueue; Resume 1; Resume 2] =
  Some (mkState [] [mkPoolConnection 0 false false 1] 1 1
          [Holding 0; Failed no_live_connection; Failed no_live_connection]
          [Push 1; Push 2; Rej 1 no_live_connection; Rej 2 no_live_connection]).
Proof. reflexivity. Qed.

(** An end event that reaches a connection under repair lets a second
    call start a second repair, and both repairs return the
    connection. *)
Example end_event_during_repair :
  run (RedisConnectionPool (Some 1))
    [GetConnection; Settle 0 None; ServerBroken 0; GetConnection;
     ServerBroken 0; GetConnection; Settle 1 None; Settle 2 None] =
  Some (mkState [] [mkPoolConnection 0 false false 3] 1 1
          [Lost 0; Holding 0; Holding 0] [Emit 0; Emit 0]).
Proof. reflexivity. Qed.

(** A [getConnection()] that starts after a broken connection was
    handed to a waiting call, and before that call resumes, picks the
    same connection; the waiting call then finds it no longer broken
    and takes it as it is. *)
Example acquire_before_resume :
  run (RedisConnectionPool (Some 1))
    [GetConnection; Settle 0 None; GetConnection; ServerBroken 0;
     GetConnection; Resume 1; Settle 2 None] =
  Some (mkState [] [mkPoolConnection 0 false false 2] 1 1
          [Lost 0; Holding 0; Holding 0] [Push 1; Emit 0; Res 1 0]).
Proof. reflexivity. Qed.

End PoolProps.

(** ** More properties of lib/basic.js *)

Module BasicMore.
Import Basic BasicSpec BasicProps.

Lemma f1_frame k r w :
  destroyed (f1 k r w) = destroyed w ∧ written (f1 k r w) = written w ∧
  reply_once (f1 k r w) = removeListener k (reply_once w) ∧
  error_once (f1 k r w) = removeListener k (error_once w) ∧
  length (promises (f1 k r w)) = length (promises w).
Proof. unfold f1. simpl. by rewrite settle_promise_length. Qed.

Lemma f2_frame k e w :
  destroyed (f2 k e w) = destroyed w ∧ written (f2 k e w) = written w ∧
  reply_once (f2 k e w) = removeListener k (reply_once w) ∧
  error_once (f2 k e w) = removeListener k (error_once w) ∧
  length (promises (f2 k e w)) = length (promises w).
Proof. unfold f2. simpl. by rewrite settle_promise_length. Qed.

Lemma removeListener_head k l : removeListener k (k :: l) = l.
Proof. simpl. by rewrite decide_True. Qed.

(** One event takes every listener off, of both kinds. *)
Lemma foldl_f1_frame r l : ∀ w,
  reply_once w = l → error_once w = l →
  let w' := foldl (λ w0 j, f1 j r w0) w l in
  reply_once w' = [] ∧ error_once w' = [] ∧
  destroyed w' = destroyed w ∧ written w' = written w ∧
  length (promises w') = length (promises w).
Proof.
  induction l as [|k l IH]; intros w Hr He; simpl; [done|].
  destruct (f1_frame k r w) as (Hd & Hw & Hr' & He' & Hl).
  destruct (IH (f1 k r w)) as (? & ? & ? & ? & ?).
  - by rewrite Hr', Hr, removeListener_head.
  - by rewrite He', He, removeListener_head.
  - split_and!; congruence.
Qed.

Lemma foldl_f2_frame e l : ∀ w,
  reply_once w = l → error_once w = l →
  let w' := foldl (λ w0 j, f2 j e w0) w l in
  reply_once w' = [] ∧ error_once w' = [] ∧
  destroyed w' = destroyed w ∧ written w' = written w ∧
  length (promises w') = length (promises w).
Proof.
  induction l as [|k l IH]; intros w Hr He; simpl; [done|].
  destruct (f2_frame k e w) as (Hd & Hw & Hr' & He' & Hl).
  destruct (IH (f2 k e w)) as (? & ? & ? & ? & ?).
  - by rewrite Hr', Hr, removeListener_head.
  - by rewrite He', He, removeListener_head.
  - split_and!; congruence.
Qed.

Lemma settle_promise_stays k j p q ps :
  ps !! k = Some q → q ≠ Pending → settle_promise j p ps !! k = Some q.
Proof.
  intros Hk Hq. destruct (decide (k = j)) as [->|Hne].
  - by rewrite (settle_promise_settled j p ps q).
  - by rewrite settle_promise_other.
Qed.

Lemma foldl_f1_stays r l : ∀ w k q,
  promises w !! k = Some q → q ≠ Pending →
  promises (foldl (λ w0 j, f1 j r w0) w l) !! k = Some q.
Proof.
  induction l as [|j l IH]; intros w k q Hk Hq; simpl; [done|].
  apply IH; [|done]. unfold f1. simpl. by apply settle_promise_stays.
Qed.

Lemma foldl_f2_stays e l : ∀ w k q,
  promises w !! k = Some q → q ≠ Pending →
  promises (foldl (λ w0 j, f2 j e w0) w l) !! k = Some q.
Proof.
  induction l as [|j l IH]; intros w k q Hk Hq; simpl; [done|].
  apply IH; [|done]. unfold f2. simpl. by apply settle_promise_stays.
Qed.

Lemma foldl_f1_answers r l : ∀ w k,
  k ∈ l → promises w !! k = Some Pending →
  promises (foldl (λ w0 j, f1 j r w0) w l) !! k = Some (Fulfilled r).
Proof.
  induction l as [|j l IH]; intros w k Hk Hp; simpl.
  - by apply elem_of_nil in Hk.
  - destruct (decide (k = j)) as [->|Hne].
    + apply foldl_f1_stays; [|done]. unfold f1. simpl.
      by apply settle_promise_pending.
    + apply elem_of_cons in Hk as [?|Hk]; [done|].
      apply IH; [done|]. unfold f1. simpl. by rewrite settle_promise_other.
Qed.

Lemma foldl_f2_answers e l : ∀ w k,
  k ∈ l → promises w !! k = Some Pending →
  promises (foldl (λ w0 j, f2 j e w0) w l) !! k = Some (RejectedWith e).
Proof.
  induction l as [|j l IH]; intros w k Hk Hp; simpl.
  - by apply elem_of_nil in Hk.
  - destruct (decide (k = j)) as [->|Hne].
    + apply foldl_f2_stays; [|done]. unfold f2. simpl.
      by apply settle_promise_pending.
    + apply elem_of_cons in Hk as [?|Hk]; [done|].
      apply IH; [done|]. unfold f2. simpl. by rewrite settle_promise_other.
Qed.

Lemma not_elem_of_Forall_ne (k : nat) (l : list nat) :
  k ∉ l → Forall (λ j, j ≠ k) l.
Proof. intros Hk. apply Forall_forall. intros j Hj ->. done. Qed.

Lemma foldl_f1_calls r l : ∀ w k,
  NoDup l → k ∈ l →
  invocations k (foldl (λ w0 j, f1 j r w0) w l) = invocations k w ++ [CbOk r].
Proof.
  induction l as [|j l IH]; intros w k Hnd Hk; simpl.
  - by apply elem_of_nil in Hk.
  - apply NoDup_cons in Hnd as [Hj Hnd].
    apply elem_of_cons in Hk as [->|Hk].
    + destruct (foldl_f1_other j r l (f1 j r w) (not_elem_of_Forall_ne _ _ Hj))
        as [-> _]. by destruct (f1_self j r w) as [-> _].
    + rewrite IH by done. destruct (f1_other k j r w) as [-> _]; [|done].
      by intros ->.
Qed.

Lemma foldl_f2_calls e l : ∀ w k,
  NoDup l → k ∈ l →
  invocations k (foldl (λ w0 j, f2 j e w0) w l) = invocations k w ++ [CbErr e].
Proof.
  induction l as [|j l IH]; intros w k Hnd Hk; simpl.
  - by apply elem_of_nil in Hk.
  - apply NoDup_cons in Hnd as [Hj Hnd].
    apply elem_of_cons in Hk as [->|Hk].
    + destruct (foldl_f2_other j e l (f2 j e w) (not_elem_of_Forall_ne _ _ Hj))
        as [-> _]. by destruct (f2_self j e w) as [-> _].
    + rewrite IH by done. destruct (f2_other k j e w) as [-> _]; [|done].
      by intros ->.
Qed.

(** The log only gains entries of calls that listened. *)
Lemma foldl_f1_invoked r l : ∀ w n,
  Forall (λ j, j < n) l → Forall (λ p, p.1 < n) (invoked w) →
  Forall (λ p, p.1 < n) (invoked (foldl (λ w0 j, f1 j r w0) w l)).
Proof.
  induction l as [|j l IH]; intros w n Hl Hw; simpl; [done|].
  apply Forall_cons in Hl as [Hj Hl]. apply IH; [done|].
  unfold f1, callback. simpl. apply Forall_app. split; [done|].
  by repeat constructor.
Qed.

Lemma foldl_f2_invoked e l : ∀ w n,
  Forall (λ j, j < n) l → Forall (λ p, p.1 < n) (invoked w) →
  Forall (λ p, p.1 < n) (invoked (foldl (λ w0 j, f2 j e w0) w l)).
Proof.
  induction l as [|j l IH]; intros w n Hl Hw; simpl; [done|].
  apply Forall_cons in Hl as [Hj Hl]. apply IH; [done|].
  unfold f2, callback. simpl. apply Forall_app. split; [done|].
  by repeat constructor.
Qed.

Lemma execute_frame cmd w :
  let k := length (promises w) in
  destroyed (execute cmd w) = destroyed w ∧
  written (execute cmd w) = written w ++ [cmd] ∧
  reply_once (execute cmd w) = reply_once w ++ [k] ∧
  error_once (execute cmd w) = error_once w ++ [k] ∧
  promises (execute cmd w) =
    promises w ++ [if destroyed w then RejectedWith "Socket Destroyed" else Pending] ∧
  invoked (execute cmd w) =
    invoked w ++ (if destroyed w then [(k, CbErr "Socket Destroyed")] else []).
Proof.
  unfold execute, executeCb. simpl. destruct (destroyed w); simpl.
  - split_and!; try done. unfold settle_promise.
    rewrite lookup_app_r, Nat.sub_diag by done. simpl.
    by rewrite insert_app_r_alt, Nat.sub_diag by done.
  - by rewrite app_nil_r.
Qed.

Lemma lookup_snoc_inv {A} (l : list A) (x y : A) k :
  (l ++ [x]) !! k = Some y → l !! k = Some y ∨ (k = length l ∧ y = x).
Proof.
  intros [?|(Hge & Hl)]%lookup_app_Some; [by left|].
  apply list_lookup_singleton_Some in Hl as [? <-]. right. split; [lia|done].
Qed.

Lemma socket_inv_fresh d : socket_inv (fresh_socket d).
Proof.
  split; simpl.
  - unfold wf. simpl. split_and!; constructor.
  - done.
  - constructor.
  - intros k Hk. done.
Qed.

Lemma socket_inv_step w ev : socket_inv w → socket_inv (socket_step w ev).
Proof.
  intros [(Hr & He & Hi) Hp Hnd Hpend].
  destruct ev as [cmd|r|e|]; simpl.
  - destruct (execute_frame cmd w) as (Hd' & Hw' & Hr' & He' & Hp' & Hi').
    assert (length (promises (execute cmd w)) = S (length (promises w))) as Hlen
      by (rewrite Hp', length_app; simpl; lia).
    split.
    + unfold wf. rewrite Hr', He', Hi', Hlen. split_and!.
      * apply Forall_app. split; [|repeat constructor; lia].
        eapply Forall_impl; [exact Hr|]. simpl. intros; lia.
      * apply Forall_app. split; [|repeat constructor; lia].
        eapply Forall_impl; [exact He|]. simpl. intros; lia.
      * apply Forall_app. split.
        -- eapply Forall_impl; [exact Hi|]. simpl. intros; lia.
        -- destruct (destroyed w); repeat constructor; simpl; lia.
    + by rewrite Hr', He', Hp.
    + rewrite Hr'. apply NoDup_app. split_and!; [done| |apply NoDup_singleton].
      intros k Hk ->%list_elem_of_singleton.
      eapply Forall_forall in Hr; [|exact Hk]. simpl in Hr. lia.
    + intros k. rewrite Hp', Hr'. intros [Hk|[-> _]]%lookup_snoc_inv.
      * apply elem_of_app. left. by apply Hpend.
      * apply elem_of_app. right. by apply list_elem_of_singleton.
  - unfold emit_reply.
    destruct (foldl_f1_frame r (reply_once w) w eq_refl (eq_sym Hp))
      as (Hr' & He' & _ & _ & Hlen).
    split.
    + unfold wf. rewrite Hr', He', Hlen. split_and!; [constructor..|].
      by apply foldl_f1_invoked.
    + by rewrite Hr', He'.
    + rewrite Hr'. constructor.
    + intros k Hk. exfalso.
      destruct (promises w !! k) as [q|] eqn:Hq.
      * destruct q.
        -- rewrite (foldl_f1_answers r _ w k) in Hk; [done|by apply Hpend|done].
        -- by rewrite (foldl_f1_stays r _ w k _ Hq) in Hk.
        -- by rewrite (foldl_f1_stays r _ w k _ Hq) in Hk.
      * apply lookup_ge_None in Hq. apply lookup_lt_Some in Hk. lia.
  - unfold emit_error.
    destruct (foldl_f2_frame e (error_once w) w Hp eq_refl)
      as (Hr' & He' & _ & _ & Hlen).
    split.
    + unfold wf. rewrite Hr', He', Hlen. split_and!; [constructor..|].
      by apply foldl_f2_invoked.
    + by rewrite Hr', He'.
    + rewrite Hr'. constructor.
    + intros k Hk. exfalso.
      destruct (promises w !! k) as [q|] eqn:Hq.
      * destruct q.
        -- rewrite (foldl_f2_answers e _ w k) in Hk;
             [done|rewrite <- Hp; by apply Hpend|done].
        -- by rewrite (foldl_f2_stays e _ w k _ Hq) in Hk.
        -- by rewrite (foldl_f2_stays e _ w k _ Hq) in Hk.
      * apply lookup_ge_None in Hq. apply lookup_lt_Some in Hk. lia.
  - by split.
Qed.

Lemma socket_inv_run evs : ∀ w, socket_inv w → socket_inv (socket_run w evs).
Proof.
  induction evs as [|ev evs IH]; intros w Hw; simpl; [done|].
  by apply IH, socket_inv_step.
Qed.

Lemma socket_inv_reachable d evs : socket_inv (socket_run (fresh_socket d) evs).
Proof. apply socket_inv_run, socket_inv_fresh. Qed.

(** The first "reply" answers every pending call, and the first
    "error" fails every pending call, however many are pending. *)
Theorem first_event_settles_all (d : bool) (evs : list SocketEvent) (k : nat) :
  promises (socket_run (fresh_socket d) evs) !! k = Some Pending →
  (∀ r, promises (emit_reply r (socket_run (fresh_socket d) evs)) !! k
        = Some (Fulfilled r)) ∧
  (∀ e, promises (emit_error e (socket_run (fresh_socket d) evs)) !! k
        = Some (RejectedWith e)).
Proof.
  intros Hk. destruct (socket_inv_reachable d evs) as [_ Hp _ Hpend]. split.
  - intros r. apply foldl_f1_answers; [by apply Hpend|done].
  - intros e. apply foldl_f2_answers; [rewrite <- Hp; by apply Hpend|done].
Qed.

Lemma first_event_settles_all_witness :
  promises (emit_reply "1"
    (socket_run (fresh_socket false) [Exec ["get"; "a"]; Exec ["get"; "b"]])) !! 1
  = Some (Fulfilled "1").
Proof.
  exact (proj1 (first_event_settles_all false
                  [Exec ["get"; "a"]; Exec ["get"; "b"]]%string 1 eq_refl) "1"%string).
Defined.

Lemma event_free_reply r w :
  socket_inv w →
  reply_once (emit_reply r w) = [] ∧ error_once (emit_reply r w) = [].
Proof.
  intros Hw. unfold emit_reply.
  by destruct (foldl_f1_frame r _ w eq_refl (eq_sym (inv_paired _ Hw)))
    as (? & ? & _).
Qed.

Lemma event_free_error e w :
  socket_inv w →
  reply_once (emit_error e w) = [] ∧ error_once (emit_error e w) = [].
Proof.
  intros Hw. unfold emit_error.
  by destruct (foldl_f2_frame e _ w (inv_paired _ Hw) eq_refl) as (? & ? & _).
Qed.

(** After a "reply" or an "error" event no listener of [execute] is
    left on the socket, whatever was registered before. *)
Theorem event_clears_listeners (d : bool) (evs : list SocketEvent) (ev : SocketEvent) :
  match ev with ReplyEvent _ | ErrorEvent _ => True | _ => False end →
  reply_once (socket_run (fresh_socket d) (evs ++ [ev])) = [] ∧
  error_once (socket_run (fresh_socket d) (evs ++ [ev])) = [].
Proof.
  intros Hev. unfold socket_run. rewrite foldl_app. simpl.
  destruct (socket_inv_reachable d evs) as [_ Hp _ _].
  destruct ev as [|r|e|]; try done; simpl.
  - destruct (foldl_f1_frame r _ (socket_run (fresh_socket d) evs) eq_refl (eq_sym Hp))
      as (? & ? & _). done.
  - destruct (foldl_f2_frame e _ (socket_run (fresh_socket d) evs) Hp eq_refl)
      as (? & ? & _). done.
Qed.

Lemma event_clears_listeners_witness :
  reply_once (socket_run (fresh_socket false)
    ([Exec ["get"; "a"]; Exec ["get"; "b"]] ++ [ErrorEvent "ECONNRESET"])) = [] ∧
  error_once (socket_run (fresh_socket false)
    ([Exec ["get"; "a"]; Exec ["get"; "b"]] ++ [ErrorEvent "ECONNRESET"])) = [].
Proof.
  exact (event_clears_listeners false [Exec ["get"; "a"]; Exec ["get"; "b"]]%string
           (ErrorEvent "ECONNRESET") I).
Defined.

Lemma invocations_execute_other cmd w k :
  k ≠ length (promises w) → invocations k (execute cmd w) = invocations k w.
Proof.
  intros Hne. destruct (execute_frame cmd w) as (_ & _ & _ & _ & _ & Hi).
  unfold invocations. rewrite Hi, omap_app.
  destruct (destroyed w); simpl; [|by rewrite app_nil_r].
  rewrite decide_False by done. by rewrite app_nil_r.
Qed.

Lemma called_once_step w ev :
  socket_inv w → destroyed w = false → ¬ is_Destroy ev →
  called_once w →
  destroyed (socket_step w ev) = false ∧ called_once (socket_step w ev).
Proof.
  intros [Hwf Hp Hnd Hpend] Hd Hev Hc.
  destruct ev as [cmd|r|e|]; cbn [socket_step]; [| | |by destruct Hev].
  - destruct (execute_frame cmd w) as (Hd' & _ & Hr' & _ & _ & Hi').
    split; [congruence|]. intros k.
    assert (invocations k (execute cmd w) = invocations k w) as ->.
    { unfold invocations. by rewrite Hi', Hd, app_nil_r. }
    split; [|apply Hc]. rewrite Hr'.
    intros [Hk| ->%list_elem_of_singleton]%elem_of_app; [by apply Hc|].
    by apply invocations_fresh.
  - unfold emit_reply.
    destruct (foldl_f1_frame r (reply_once w) w eq_refl (eq_sym Hp))
      as (Hr' & _ & Hd' & _). split; [congruence|]. intros k. rewrite Hr'.
    split; [by intros ?%elem_of_nil|].
    destruct (decide (k ∈ reply_once w)) as [Hk|Hk].
    + rewrite foldl_f1_calls, (proj1 (Hc k) Hk) by done. simpl. lia.
    + destruct (foldl_f1_other k r _ w (not_elem_of_Forall_ne _ _ Hk)) as [-> _].
      apply Hc.
  - unfold emit_error.
    destruct (foldl_f2_frame e (error_once w) w Hp eq_refl)
      as (Hr' & _ & Hd' & _). split; [congruence|]. intros k. rewrite Hr'.
    split; [by intros ?%elem_of_nil|].
    destruct (decide (k ∈ error_once w)) as [Hk|Hk].
    + rewrite foldl_f2_calls, (proj1 (Hc k)) by (by rewrite <- ?Hp in * ). simpl. lia.
    + destruct (foldl_f2_other k e _ w (not_elem_of_Forall_ne _ _ Hk)) as [-> _].
      apply Hc.
Qed.

(** On a socket that is never destroyed, no callback passed to
    [executeCb] is invoked more than once, whatever calls, replies and
    errors follow one another. *)
Theorem live_socket_calls_back_once (evs : list SocketEvent) (k : nat) :
  Forall (λ ev, ¬ (is_Destroy ev)) evs →
  length (invocations k (socket_run (fresh_socket false) evs)) ≤ 1.
Proof.
  intros Hevs.
  assert (∀ w, socket_inv w → destroyed w = false → called_once w →
               called_once (socket_run w evs)) as Hrun.
  { induction Hevs as [|ev evs Hev _ IH]; intros w Hw Hd Hc; simpl; [done|].
    destruct (called_once_step w ev Hw Hd Hev Hc) as [Hd' Hc'].
    apply IH; [by apply socket_inv_step|done..]. }
  apply Hrun; [apply socket_inv_fresh|done|].
  intros j. split; [by intros ?%elem_of_nil|]. simpl. lia.
Qed.

Lemma live_socket_calls_back_once_witness :
  length (invocations 0 (socket_run (fresh_socket false)
    [Exec ["get"; "a"]; ReplyEvent "1"; ErrorEvent "ECONNRESET"; ReplyEvent "2"])) ≤ 1.
Proof.
  apply (live_socket_calls_back_once
           [Exec ["get"; "a"]; ReplyEvent "1"; ErrorEvent "ECONNRESET"; ReplyEvent "2"]%string 0).
  repeat constructor; simpl; tauto.
Defined.

(** A call whose listeners are gone is never called back again, and
    its promise stays as it is. *)
Lemma done_stays w ev k :
  socket_inv w → k < length (promises w) → k ∉ reply_once w →
  (k ∉ reply_once (socket_step w ev)) ∧
  k < length (promises (socket_step w ev)) ∧
  invocations k (socket_step w ev) = invocations k w ∧
  promises (socket_step w ev) !! k = promises w !! k.
Proof.
  intros [Hwf Hp Hnd Hpend] Hk Hnot.
  destruct ev as [cmd|r|e|]; cbn [socket_step].
  - destruct (execute_frame cmd w) as (_ & _ & Hr' & _ & Hp' & _).
    rewrite Hr', Hp', length_app. split_and!.
    + intros [?| ->%list_elem_of_singleton]%elem_of_app; [done|lia].
    + lia.
    + apply invocations_execute_other. lia.
    + by apply lookup_app_l.
  - unfold emit_reply.
    destruct (foldl_f1_frame r (reply_once w) w eq_refl (eq_sym Hp))
      as (Hr' & _ & _ & _ & Hlen).
    destruct (foldl_f1_other k r _ w (not_elem_of_Forall_ne _ _ Hnot)) as [Hi Hq].
    rewrite Hr', Hlen. split_and!; [by intros ?%elem_of_nil|done..].
  - unfold emit_error. rewrite Hp in Hnot.
    destruct (foldl_f2_frame e (error_once w) w Hp eq_refl)
      as (Hr' & _ & _ & _ & Hlen).
    destruct (foldl_f2_other k e _ w (not_elem_of_Forall_ne _ _ Hnot)) as [Hi Hq].
    rewrite Hr', Hlen. split_and!; [by intros ?%elem_of_nil|done..].
  - done.
Qed.

Lemma done_stays_run evs : ∀ w k,
  socket_inv w → k < length (promises w) → k ∉ reply_once w →
  invocations k (socket_run w evs) = invocations k w ∧
  promises (socket_run w evs) !! k = promises w !! k.
Proof.
  induction evs as [|ev evs IH]; intros w k Hw Hk Hnot; simpl; [done|].
  destruct (done_stays w ev k Hw Hk Hnot) as (? & ? & Hi & Hq).
  destruct (IH (socket_step w ev) k) as [-> ->]; [by apply socket_inv_step|done..].
Qed.

(** On a socket that is not destroyed, [execute] writes the command
    and leaves its promise pending and its callback uncalled; the
    next "reply" fulfils the promise with the reply, the next "error"
    rejects it with the error, the callback being invoked once, and
    nothing that happens to the socket later changes either. *)
Theorem execute_settles_once (d : bool) (evs : list SocketEvent) (commandArray : list string) :
  destroyed (socket_run (fresh_socket d) evs) = false →
  let w := socket_run (fresh_socket d) evs in
  let k := length (promises w) in
  promises (execute commandArray w) !! k = Some Pending ∧
  invocations k (execute commandArray w) = [] ∧
  written (execute commandArray w) = written w ++ [commandArray] ∧
  (∀ r later,
     promises (socket_run (emit_reply r (execute commandArray w)) later) !! k
       = Some (Fulfilled r) ∧
     invocations k (socket_run (emit_reply r (execute commandArray w)) later)
       = [CbOk r]) ∧
  (∀ e later,
     promises (socket_run (emit_error e (execute commandArray w)) later) !! k
       = Some (RejectedWith e) ∧
     invocations k (socket_run (emit_error e (execute commandArray w)) later)
       = [CbErr e]).
Proof.
  intros Hd w k.
  pose proof (socket_inv_reachable d evs) as Hw. fold w in Hw.
  pose proof (socket_inv_step w (Exec commandArray) Hw) as Hw1. simpl in Hw1.
  destruct (execute_frame commandArray w) as (_ & Hwr & Hr1 & He1 & Hp1 & Hi1).
  fold w k in Hd, Hr1, He1, Hp1, Hi1. rewrite Hd in Hp1, Hi1.
  assert (promises (execute commandArray w) !! k = Some Pending) as Hk
    by (by rewrite Hp1, lookup_app_r, Nat.sub_diag).
  assert (invocations k (execute commandArray w) = []) as Hnone.
  { unfold invocations. rewrite Hi1, app_nil_r. apply invocations_fresh, Hw. }
  assert (k ∈ reply_once (execute commandArray w)) as Hin
    by (rewrite Hr1; apply elem_of_app; right; by apply list_elem_of_singleton).
  split_and!; [done..| |].
  - intros r later.
    pose proof (socket_inv_step _ (ReplyEvent r) Hw1) as Hw2. simpl in Hw2.
    destruct (done_stays_run later (emit_reply r (execute commandArray w)) k Hw2)
      as [-> ->].
    + unfold emit_reply.
      destruct (foldl_f1_frame r _ (execute commandArray w) eq_refl
                  (eq_sym (inv_paired _ Hw1))) as (_ & _ & _ & _ & ->).
      by eapply lookup_lt_Some.
    + destruct (event_free_reply r (execute commandArray w) Hw1) as [-> _].
      by intros ?%elem_of_nil.
    + split.
      * by apply foldl_f1_answers.
      * unfold emit_reply. rewrite foldl_f1_calls, Hnone; [done|apply Hw1|done].
  - intros e later.
    pose proof (socket_inv_step _ (ErrorEvent e) Hw1) as Hw2. simpl in Hw2.
    destruct (done_stays_run later (emit_error e (execute commandArray w)) k Hw2)
      as [-> ->].
    + unfold emit_error.
      destruct (foldl_f2_frame e _ (execute commandArray w)
                  (inv_paired _ Hw1) eq_refl) as (_ & _ & _ & _ & ->).
      by eapply lookup_lt_Some.
    + destruct (event_free_error e (execute commandArray w) Hw1) as [-> _].
      by intros ?%elem_of_nil.
    + split.
      * apply foldl_f2_answers; [by rewrite <- (inv_paired _ Hw1)|done].
      * unfold emit_error. rewrite foldl_f2_calls, Hnone;
          [done|rewrite <- (inv_paired _ Hw1); apply Hw1
          |by rewrite <- (inv_paired _ Hw1)].
Qed.

Lemma execute_settles_once_witness :
  promises (socket_run (emit_reply "PONG"
              (execute ["ping"] (socket_run (fresh_socket false) [])))
              [ErrorEvent "ECONNRESET"]) !! 0 = Some (Fulfilled "PONG") ∧
  invocations 0 (socket_run (emit_reply "PONG"
              (execute ["ping"] (socket_run (fresh_socket false) [])))
              [ErrorEvent "ECONNRESET"]) = [CbOk "PONG"].
Proof.
  exact (proj1 (proj2 (proj2 (proj2
           (execute_settles_once false [] ["ping"]%string eq_refl))))
           "PONG"%string [ErrorEvent "ECONNRESET"%string]).
Defined.

(** [createConnection] settles by whichever of "connect" and "error"
    comes first: its callback is invoked exactly once, with the
    outcome of the first event, and both listeners are gone; no later
    event invokes the callback again or changes the promise. *)
Theorem createConnection_settles_once (ev : ConnectEvent) (later : list ConnectEvent) :
  connect_run createConnection (ev :: later) =
  mkAttempt false false (settled_by ev) [called_with ev].
Proof.
  assert (∀ t, connect_once t = false → connect_error_once t = false →
               connect_run t later = t) as Hidle.
  { induction later as [|ev' later IH]; intros t H1 H2; simpl; [done|].
    assert (connect_step t ev' = t) as ->
      by (destruct ev'; simpl; by rewrite ?H1, ?H2).
    by apply IH. }
  unfold connect_run at 1. simpl. fold (connect_run (connect_step createConnection ev) later).
  destruct ev; simpl; by rewrite Hidle.
Qed.

End BasicMore.

(** ** More properties of lib/pool.js *)

Module PoolMoreProps.
Import Pool PoolSpec PoolProps PoolMore.

(** What the initial pool has and every step keeps, every reachable
    state has. *)
Lemma reachable_ind (P : State → Prop) :
  (∀ config, P (RedisConnectionPool config)) →
  (∀ s ev s', wf s → P s → transition s ev s' → P s') →
  ∀ config evs s, run (RedisConnectionPool config) evs = Some s → P s.
Proof.
  intros Hinit Hstep config evs.
  assert (∀ s0 s, wf s0 → P s0 → run s0 evs = Some s → P s) as Hrun.
  { induction evs as [|ev evs IH]; intros s0 s Hwf H0 Hrun; simpl in Hrun.
    - by injection Hrun as <-.
    - destruct (step s0 ev) as [s1|] eqn:Hs; [|done]. simpl in Hrun.
      apply (IH s1); [by eapply wf_step| |done].
      eapply Hstep; [done..|]. by apply step_inv. }
  intros s. apply Hrun; [apply wf_init|apply Hinit].
Qed.

Lemma emitted_queue i s :
  queue (emitted i s) = queue s ∨ ∃ w, queue s = w :: queue (emitted i s).
Proof.
  destruct (emitted_cases i s) as [->|(x & w & q' & _ & Hq & _ & ->)];
    [by left|right]. by exists w.
Qed.

Lemma emitted_queue_nonempty i s : queue (emitted i s) ≠ [] → queue s ≠ [].
Proof. destruct (emitted_queue i s) as [->|[w ->]]; done. Qed.

Lemma got_queue k s : queue (got k s) = queue s.
Proof. unfold got. by repeat case_match. Qed.

Lemma full_transition s ev s' :
  full_when_waiting s → transition s ev s' → full_when_waiting s'.
Proof.
  intros Hf Htr. unfold full_when_waiting in *.
  pose proof (transition_grows _ _ _ Htr) as (Hlim & _ & Hsz). rewrite Hlim.
  destruct Htr; simpl in *; rewrite ?got_queue;
    try (intros Hq; specialize (Hf Hq); lia);
    try (intros Hq; apply emitted_queue_nonempty in Hq; simpl in Hq;
         specialize (Hf Hq); lia).
  - intros _. lia.
  - done.
Qed.

Lemma lose_waiting i t : lose i t = AwaitRelease ↔ t = AwaitRelease.
Proof. destruct t; simpl; try done. by case_decide. Qed.

Lemma waiters_emitted i s :
  wf_core s → waiters_queued s → waiters_queued (emitted i s).
Proof.
  intros Hwf Hw.
  destruct (emitted_cases i s) as [->|(x & w & q' & _ & Hq & _ & ->)]; [done|].
  pose proof (wf_core_queue_nodup _ Hwf) as Hnd. rewrite Hq in Hnd.
  apply NoDup_cons in Hnd as [Hw' _].
  assert (tasks s !! w = Some AwaitRelease) as Hwt
    by (apply Hw; rewrite Hq; by left).
  intros c. simpl. destruct (decide (c = w)) as [->|Hne].
  - rewrite (settle_pending w (Resolved i) (tasks s) Hwt). split; [done|].
    by intros ?.
  - rewrite settle_lookup_other by done. rewrite (Hw c), Hq.
    rewrite elem_of_cons. split; [by intros [?|?]|by right].
Qed.

Lemma waiters_broke i s : waiters_queued s → waiters_queued (broke i s).
Proof.
  intros Hw c. simpl. rewrite list_lookup_fmap, <- (Hw c).
  destruct (tasks s !! c) as [t|]; simpl; [|done].
  split; intros H; injection H as H; f_equal; by apply (lose_waiting i).
Qed.

Lemma waiters_set_task s c t t0 :
  waiters_queued s → tasks s !! c = Some t0 → t0 ≠ AwaitRelease →
  t ≠ AwaitRelease → waiters_queued (upd_tasks (<[c := t]>) s).
Proof.
  intros Hw Hc H0 Ht c'. simpl. rewrite <- (Hw c').
  destruct (decide (c' = c)) as [->|Hne].
  - rewrite list_lookup_insert_eq by (by eapply lookup_lt_Some).
    rewrite Hc. naive_solver.
  - by rewrite list_lookup_insert_ne.
Qed.

Lemma waiters_spawn s t :
  wf_core s → waiters_queued s → t ≠ AwaitRelease →
  waiters_queued (upd_tasks (λ ts, ts ++ [t]) s).
Proof.
  intros Hwf Hw Ht c. simpl. rewrite <- (Hw c). split.
  - intros [?|(_ & Hl)]%lookup_app_Some; [done|].
    apply list_lookup_singleton_Some in Hl as [_ ?]. congruence.
  - apply lookup_app_l_Some.
Qed.

Lemma got_task_not_waiting k s : got_task k s ≠ AwaitRelease.
Proof. unfold got_task. by repeat case_match. Qed.

Lemma waiters_got k s : waiters_queued s → waiters_queued (got k s).
Proof. intros Hw c. by rewrite got_tasks, got_queue. Qed.

Lemma wf_core_got' k s : wf_core s → wf_core (got k s).
Proof. apply wf_core_got. Qed.

Lemma waiters_transition s ev s' :
  wf s → waiters_queued s → transition s ev s' → waiters_queued s'.
Proof.
  intros [Hwf Hq] Hw Htr.
  destruct Htr as [k x Hfind|Hfind Hlt|Hfind Hge|c i Hc|c i e Hc Hi He|c i e Hc Hi He
         |c i Hc Hi|c e Hc|c t i Hc Ht Hi|c t i e Hc Ht Hi He|c t i r Hc Ht Hi Hr
         |i Hi|].
  - apply waiters_spawn; [by apply wf_core_got|by apply waiters_got
                         |apply got_task_not_waiting].
  - intros c. simpl. rewrite <- (Hw c). split.
    + intros [?|(_ & Hl)]%lookup_app_Some; [done|].
      apply list_lookup_singleton_Some in Hl as [_ ?]. congruence.
    + apply lookup_app_l_Some.
  - intros c. simpl. rewrite elem_of_app, list_elem_of_singleton, <- (Hw c). split.
    + intros [?|(Hge' & Hl)]%lookup_app_Some; [by left|].
      apply list_lookup_singleton_Some in Hl as [? _]. right. lia.
    + intros [?| ->]; [by apply lookup_app_l_Some|].
      by rewrite lookup_app_r, Nat.sub_diag.
  - destruct Hc as [Hc|Hc]; by eapply waiters_set_task.
  - assert (∃ t0, tasks s !! c = Some t0 ∧ t0 ≠ AwaitRelease) as (t0 & H0 & Hne)
      by (destruct Hc as [Hc|Hc]; eauto).
    eapply (waiters_set_task _ c (Failed e) (lose i t0)); [| |by apply lose_AwaitRelease|done].
    + apply waiters_emitted; [by apply wf_core_broke|by apply waiters_broke].
    + apply emitted_task; [by apply broke_task|by apply lose_AwaitRelease].
  - destruct Hc as [Hc|Hc]; by eapply waiters_set_task.
  - eapply waiters_set_task; [by apply waiters_got|by rewrite got_tasks|done
                             |apply got_task_not_waiting].
  - by eapply waiters_set_task.
  - apply in_hand_slot_of in Ht as [_ Hne].
    apply waiters_emitted.
    + apply wf_core_alter; [|done]. eapply wf_core_set_task; [done..|].
      intros ? [= <-]. done.
    + by apply (waiters_set_task s c (Released i) t).
  - apply waiters_emitted; [by apply wf_core_broke|by apply waiters_broke].
  - done.
  - apply waiters_emitted; [by apply wf_core_broke|by apply waiters_broke].
  - intros c. simpl. split; [|by intros ?%elem_of_nil].
    intros Hc. exfalso. pose proof Hc as Hc'.
    apply foldl_settle_inv in Hc' as [H0|(_ & ?)]; [|done].
    rewrite (foldl_settle_hit (λ _, Rejected (ConnectionError "No live TCP connection"))
               (queue s) (tasks s) c) in Hc;
      [done|by apply wf_core_queue_nodup|by apply Hw|done].
Qed.

Lemma connected_alter (f : PoolConnection → PoolConnection) i s :
  (∀ x, conn x ≤ conn (f x)) → connected s →
  connected (upd_connections (alter f i) s).
Proof.
  intros Hf H k y (x & Hx & [->|[-> ->]])%alter_lookup_inv.
  - by eapply H.
  - specialize (H _ _ Hx). specialize (Hf x). lia.
Qed.

Lemma connected_emitted i s : connected s → connected (emitted i s).
Proof.
  intros H.
  destruct (emitted_cases i s) as [->|(x & w & q' & _ & _ & _ & ->)]; [done|].
  by apply (connected_alter (set_free false) i).
Qed.

Lemma connected_broke i s : connected s → connected (broke i s).
Proof. intros H. by apply (connected_alter (set_broken true) i). Qed.

Lemma connected_got k s : connected s → connected (got k s).
Proof.
  intros H. unfold got. repeat case_match; try done;
    repeat (apply connected_alter; [simpl; lia|]); done.
Qed.

Lemma connected_transition s ev s' :
  connected s → transition s ev s' → connected s'.
Proof.
  intros H Htr.
  destruct Htr as [k x Hfind|Hfind Hlt|Hfind Hge|c i Hc|c i e Hc Hi He|c i e Hc Hi He
         |c i Hc Hi|c e Hc|c t i Hc Ht Hi|c t i e Hc Ht Hi He|c t i r Hc Ht Hi Hr
         |i Hi|].
  - by apply (connected_got k s).
  - intros k x [?|(_ & Hl)]%lookup_app_Some; [by eapply H|].
    by apply list_lookup_singleton_Some in Hl as [_ <-].
  - done.
  - done.
  - by apply (connected_emitted i (broke i s)), connected_broke.
  - done.
  - by apply (connected_got i s).
  - done.
  - apply connected_emitted. by apply (connected_alter (set_free true) i).
  - by apply connected_emitted, connected_broke.
  - done.
  - by apply connected_emitted, connected_broke.
  - done.
Qed.

Lemma answered_app tr l :
  answered tr → Forall (λ o, ∀ w i, o ≠ Res w i) l → answered (tr ++ l).
Proof.
  intros H Hl n w i [Hn|(Hge & Hn)]%lookup_app_Some.
  - destruct (H _ _ _ Hn) as (m & -> & Hm). exists m. split; [done|].
    by apply lookup_app_l_Some.
  - apply list_elem_of_lookup_2 in Hn.
    eapply Forall_forall in Hl; [|exact Hn]. by destruct (Hl w i).
Qed.

Lemma answered_handoff tr w i :
  answered tr → answered ((tr ++ [Emit i]) ++ [Res w i]).
Proof.
  intros H n w' i' [Hn|(Hge & Hn)]%lookup_app_Some.
  - apply (answered_app tr [Emit i]) in Hn as (m & -> & Hm);
      [|done|by repeat constructor].
    exists m. split; [done|]. by apply lookup_app_l_Some.
  - apply list_lookup_singleton_Some in Hn as [Hn [= <- <-]].
    rewrite length_app in *. simpl in *.
    exists (length tr). split; [lia|].
    rewrite lookup_app_l by (rewrite length_app; simpl; lia).
    by rewrite lookup_app_r, Nat.sub_diag.
Qed.

Lemma answered_emitted i s : answered (trace s) → answered (trace (emitted i s)).
Proof.
  intros H.
  destruct (emitted_cases i s) as [->|(x & w & q' & _ & _ & _ & ->)]; simpl.
  - apply answered_app; [done|by repeat constructor].
  - by apply answered_handoff.
Qed.

Lemma got_trace k s : trace (got k s) = trace s.
Proof. unfold got. by repeat case_match. Qed.

Lemma answered_transition s ev s' :
  answered (trace s) → transition s ev s' → answered (trace s').
Proof.
  intros H Htr.
  destruct Htr as [k x Hfind|Hfind Hlt|Hfind Hge|c i Hc|c i e Hc Hi He|c i e Hc Hi He
         |c i Hc Hi|c e Hc|c t i Hc Ht Hi|c t i e Hc Ht Hi He|c t i r Hc Ht Hi Hr
         |i Hi|]; simpl; rewrite ?got_trace; try done.
  - apply answered_app; [done|by repeat constructor].
  - by apply (answered_emitted i (broke i s)).
  - by apply (answered_emitted i
      (upd_connections (alter (set_free true) i) (upd_tasks (<[c := Released i]>) s))).
  - by apply (answered_emitted i (broke i s)).
  - by apply (answered_emitted i (broke i s)).
  - apply answered_app; [done|]. apply Forall_fmap, Forall_forall. by intros.
Qed.

(** While somebody waits, the pool is at its limit and no connection
    is free.  [inspectPool()] has one entry per connection, [size] of
    them, never more than [connectionLimit]; while somebody waits it
    has exactly [connectionLimit] entries and none of them is free. *)
Theorem pool_status (config : option nat) (evs : list Event) (s : State) :
  run (RedisConnectionPool config) evs = Some s →
  length (inspectPool s) = size s ∧
  size s ≤ connectionLimit s ∧
  (queue s ≠ [] →
     size s = connectionLimit s ∧
     ∀ b f, (b, f) ∈ inspectPool s → f = false).
Proof.
  intros Hrun. pose proof (wf_reachable _ _ _ Hrun) as [Hwf Hquiet].
  assert (full_when_waiting s) as Hfull.
  { revert Hrun. apply (reachable_ind full_when_waiting).
    - by intros ? ?.
    - intros s0 ev s1 _. apply full_transition. }
  pose proof (wf_limit _ Hwf) as Hlim. split_and!.
  - unfold inspectPool. by rewrite length_fmap, (wf_size _ Hwf).
  - done.
  - intros Hq. split; [specialize (Hfull Hq); lia|].
    intros b f (x & [= -> ->] & [k Hk]%list_elem_of_lookup)%list_elem_of_fmap.
    by eapply Hquiet.
Qed.

Lemma pool_status_witness :
  length (inspectPool (mkState [1] [mkPoolConnection 0 false false 1] 1 1
            [AwaitInit 0; AwaitRelease] [Push 1])) = 1 ∧
  1 ≤ 1 ∧
  ([1] ≠ [] →
     1 = 1 ∧
     ∀ b f, (b, f) ∈ inspectPool (mkState [1] [mkPoolConnection 0 false false 1] 1 1
                        [AwaitInit 0; AwaitRelease] [Push 1]) → f = false).
Proof.
  exact (pool_status (Some 1) [GetConnection; GetConnection]
           (mkState [1] [mkPoolConnection 0 false false 1] 1 1
              [AwaitInit 0; AwaitRelease] [Push 1]) eq_refl).
Defined.

(** No waiter is lost and no entry is stale: the calls suspended in
    [waitForRelease()] are exactly the calls with an entry in the
    queue, each with one entry. *)
Theorem waiters_are_queued (config : option nat) (evs : list Event) (s : State) :
  run (RedisConnectionPool config) evs = Some s →
  NoDup (queue s) ∧
  ∀ c, tasks s !! c = Some AwaitRelease ↔ c ∈ queue s.
Proof.
  intros Hrun. split.
  - by apply wf_core_queue_nodup, (wf_reachable _ _ _ Hrun).
  - revert Hrun. apply (reachable_ind waiters_queued).
    + intros ? c. simpl. split; [done|by intros ?%elem_of_nil].
    + intros s0 ev s1. apply waiters_transition.
Qed.

Lemma waiters_are_queued_witness :
  NoDup [2] ∧
  ∀ c, [Released 0; Resolved 0; AwaitRelease] !! c = Some AwaitRelease ↔ c ∈ [2].
Proof.
  exact (waiters_are_queued (Some 1)
           [GetConnection; Settle 0 None; GetConnection; GetConnection; Release 0]
           (mkState [2] [mkPoolConnection 0 false false 1] 1 1
              [Released 0; Resolved 0; AwaitRelease] [Push 1; Push 2; Emit 0; Res 1 0])
           eq_refl).
Defined.

(** Every connection in the pool has its RedisConnection: a
    PoolConnection is pushed and [this.conn] assigned in one go, so
    [this.conn] is never undefined when [execute()] reads it. *)
Theorem pooled_connections_are_connected (config : option nat) (evs : list Event) (s : State) :
  run (RedisConnectionPool config) evs = Some s →
  ∀ k x, connections s !! k = Some x → 1 ≤ conn x.
Proof.
  apply (reachable_ind connected).
  - by intros ? k x.
  - intros s0 ev s1 _. apply connected_transition.
Qed.

Lemma pooled_connections_are_connected_witness :
  run (RedisConnectionPool (Some 2)) [GetConnection; GetConnection] =
    Some (mkState [] [mkPoolConnection 0 false false 1; mkPoolConnection 1 false false 1]
            2 2 [AwaitInit 0; AwaitInit 1] []) ∧
  1 ≤ conn (mkPoolConnection 1 false false 1).
Proof.
  split; [reflexivity|].
  exact (pooled_connections_are_connected (Some 2) [GetConnection; GetConnection]
           (mkState [] [mkPoolConnection 0 false false 1; mkPoolConnection 1 false false 1]
              2 2 [AwaitInit 0; AwaitInit 1] []) eq_refl
           1 (mkPoolConnection 1 false false 1) eq_refl).
Defined.

(** The pool hands a connection to a waiting call only in answer to a
    "release" notification for that very connection: every [res] in
    the trace comes right after the [emit] for the same index. *)
Theorem handoff_follows_notification (config : option nat) (evs : list Event) (s : State) :
  run (RedisConnectionPool config) evs = Some s →
  ∀ n w i, trace s !! n = Some (Res w i) →
    ∃ m, n = S m ∧ trace s !! m = Some (Emit i).
Proof.
  apply (reachable_ind (λ s, answered (trace s))).
  - by intros ? n w i.
  - intros s0 ev s1 _. apply answered_transition.
Qed.

Lemma handoff_follows_notification_witness :
  ∃ m, 2 = S m ∧ [Push 1; Emit 0; Res 1 0] !! m = Some (Emit 0).
Proof.
  exact (handoff_follows_notification (Some 1)
           [GetConnection; Settle 0 None; GetConnection; Release 0]
           (mkState [] [mkPoolConnection 0 false false 1] 1 1
              [Released 0; Resolved 0] [Push 1; Emit 0; Res 1 0]) eq_refl
           2 1 0 eq_refl).
Defined.

Lemma alter_insert {A} (f : A → A) (l : list A) k x :
  l !! k = Some x → alter f k l = <[k := f x]> l.
Proof.
  intros Hx. apply list_eq. intros j. destruct (decide (k = j)) as [->|Hne].
  - rewrite list_lookup_alter_eq, Hx, list_lookup_insert_eq; [done|].
    by eapply lookup_lt_Some.
  - by rewrite list_lookup_alter_ne, list_lookup_insert_ne.
Qed.

Lemma got_connections k s x :
  connections s !! k = Some x →
  connections (got k s) =
  <[k := if broken x then mkPoolConnection (idx x) false false (S (conn x))
         else set_free false x]> (connections s).
Proof.
  intros Hx. unfold got. rewrite Hx. destruct (broken x) eqn:Hb; simpl.
  - rewrite !list_alter_alter_eq. by rewrite (alter_insert _ _ _ _ Hx).
  - by rewrite (alter_insert _ _ _ _ Hx).
Qed.

Lemma find_avail_first cs k x :
  find_avail cs = Some (k, x) →
  ∀ j y, j < k → cs !! j = Some y → avail y = false.
Proof.
  unfold find_avail. intros (_ & _ & Hmin)%list_find_Some j y Hj Hy.
  apply Is_true_false. by eapply Hmin.
Qed.

(** [getConnection()] reuses the first connection that is free or
    broken, if there is one: the queue and the size stay as they are,
    nothing is notified, and the call is given the connection at once
    when it is not broken, or awaits its repair, for which a new
    RedisConnection is made.  Only when no connection is free or
    broken does the pool grow, by one connection at the end, if
    [size] is below the limit; and only when it cannot grow does the
    call join the end of the queue, the connections staying as they
    are. *)
Theorem getConnection_dispatch (s : State) :
  ∃ s', step s GetConnection = Some s' ∧
    connectionLimit s' = connectionLimit s ∧
    match find_avail (connections s) with
    | Some (k, x) =>
        (∀ j y, j < k → connections s !! j = Some y → avail y = false) ∧
        queue s' = queue s ∧ size s' = size s ∧ trace s' = trace s ∧
        tasks s' = tasks s ++ [if broken x then AwaitRepair k else Holding k] ∧
        connections s' =
          <[k := if broken x then mkPoolConnection (idx x) false false (S (conn x))
                 else set_free false x]> (connections s)
    | None =>
        if decide (size s < connectionLimit s) then
          queue s' = queue s ∧ size s' = S (size s) ∧ trace s' = trace s ∧
          tasks s' = tasks s ++ [AwaitInit (length (connections s))] ∧
          connections s' =
            connections s ++ [mkPoolConnection (length (connections s)) false false 1]
        else
          queue s' = queue s ++ [length (tasks s)] ∧ size s' = size s ∧
          trace s' = trace s ++ [Push (length (tasks s))] ∧
          tasks s' = tasks s ++ [AwaitRelease] ∧
          connections s' = connections s
    end.
Proof.
  destruct (find_avail (connections s)) as [[k x]|] eqn:Hfind.
  - rewrite (step_GetConnection_old _ _ _ Hfind). eexists. split; [done|].
    pose proof (find_avail_first _ _ _ Hfind) as Hmin.
    apply find_avail_Some in Hfind as [Hx _].
    destruct (got_frame k s) as [Hlim Hsz]. simpl.
    rewrite Hlim, Hsz, got_queue, got_trace, got_tasks, (got_connections k s x Hx).
    split_and!; try done. unfold got_task. by rewrite Hx.
  - destruct (decide (size s < connectionLimit s)) as [Hlt|Hge].
    + rewrite step_GetConnection_new by done. eexists. by split.
    + rewrite step_GetConnection_wait by done. eexists. by split.
Qed.






Lemma find_avail_intro cs k x :
  cs !! k = Some x → avail x = true →
  (∀ j y, j < k → cs !! j = Some y → avail y = false) →
  find_avail cs = Some (k, x).
Proof.
  intros Hx Ha Hmin. unfold find_avail. apply list_find_Some.
  split_and!; [done|by apply Is_true_true|].
  intros j y Hy Hj. apply Is_true_false. by eapply Hmin.
Qed.

Lemma find_avail_exists cs i x :
  cs !! i = Some x → avail x = true →
  ∃ k y, find_avail cs = Some (k, y) ∧ k ≤ i.
Proof.
  intros Hx Ha.
  destruct (find_avail cs) as [[k y]|] eqn:Hfind.
  - exists k, y. split; [done|].
    destruct (decide (k ≤ i)) as [|Hgt]; [done|].
    rewrite (find_avail_first _ _ _ Hfind i x) in Ha; [done|lia|done].
  - rewrite find_avail_None in Hfind. by rewrite (Hfind _ _ Hx) in Ha.
Qed.

(** When the first initialization of a new connection fails with a
    ConnectionError, the call is rejected with that error and the
    connection stays in the pool, counted by [size], broken and not
    free; the next scan for a free or broken connection finds it, so
    the next caller repairs it. *)
Theorem first_initialization_error (s : State) (e : JsError) :
  find_avail (connections s) = None → size s < connectionLimit s →
  is_ConnectionError e = true →
  ∃ s', run s [GetConnection; Settle (length (tasks s)) (Some e)] = Some s' ∧
    tasks s' !! length (tasks s) = Some (Failed e) ∧
    size s' = S (size s) ∧
    ∃ x, find_avail (connections s') = Some (length (connections s), x) ∧
         broken x = true ∧ free x = false.
Proof.
  intros Hfind Hlt He.
  set (c := length (tasks s)). set (i := length (connections s)).
  set (s1 := mkState (queue s) (connections s ++ [newly i]) (S (size s))
               (connectionLimit s) (tasks s ++ [AwaitInit i]) (trace s)).
  assert (Hc1 : tasks s1 !! c = Some (AwaitInit i))
    by (subst s1 c; simpl; by rewrite lookup_app_r, Nat.sub_diag).
  assert (Hi1 : connections s1 !! i = Some (newly i))
    by (subst s1 i; simpl; by rewrite lookup_app_r, Nat.sub_diag).
  eexists. split.
  { cbn [run]. rewrite step_GetConnection_new by done. cbn [mbind option_bind].
    fold i c s1. rewrite (step_Settle_error s1 c i e); [|by left|by rewrite Hi1].
    by rewrite He. }
  destruct (emitted_broken i (broke i s1) _ (broke_lookup i s1 _ Hi1) eq_refl)
    as (x & Hx & Hb & Hf).
  split_and!.
  - simpl. apply list_lookup_insert_eq.
    rewrite emitted_length_tasks, broke_length_tasks. by eapply lookup_lt_Some.
  - simpl. by rewrite (proj2 (emitted_frame i (broke i s1))).
  - exists x. split_and!; [|done|by apply Hf].
    apply find_avail_intro; [done|unfold avail; by rewrite Hb, orb_true_r|].
    intros j y Hj. simpl. rewrite emitted_conn_ne, broke_conn_ne by lia.
    subst s1. simpl. rewrite lookup_app_l by done.
    rewrite find_avail_None in Hfind. apply Hfind.
Qed.

Lemma first_initialization_error_witness :
  ∃ s', run (RedisConnectionPool (Some 2))
          [GetConnection; Settle 0 (Some (ConnectionError "connect ECONNREFUSED"))]
        = Some s' ∧
    tasks s' !! 0 = Some (Failed (ConnectionError "connect ECONNREFUSED")) ∧
    size s' = 1 ∧
    ∃ x, find_avail (connections s') = Some (0, x) ∧
         broken x = true ∧ free x = false.
Proof.
  exact (first_initialization_error (RedisConnectionPool (Some 2))
           (ConnectionError "connect ECONNREFUSED") eq_refl
           (Nat.lt_0_succ 1) eq_refl).
Defined.

(** An end event never loses the connection: afterwards it is
    flagged broken; when somebody waits it goes to the call at the
    head of the queue, and when nobody waits the next scan for a free
    or broken connection succeeds.  The pool keeps its size. *)
Theorem link_loss_keeps_connection (config : option nat) (evs : list Event)
    (s : State) (i : nat) :
  run (RedisConnectionPool config) evs = Some s →
  i < length (connections s) →
  ∃ s', step s (ServerBroken i) = Some s' ∧
    length (connections s') = length (connections s) ∧
    (∃ x, connections s' !! i = Some x ∧ broken x = true) ∧
    (queue s = [] → queue s' = [] ∧ is_Some (find_avail (connections s'))) ∧
    (∀ w q, queue s = w :: q →
       queue s' = q ∧ tasks s' !! w = Some (Resolved i)).
Proof.
  intros Hwf%wf_reachable Hi.
  destruct (lookup_lt_is_Some_2 _ _ Hi) as [x Hx].
  rewrite step_ServerBroken by by rewrite Hx.
  eexists. split; [done|].
  pose proof (broke_lookup i s x Hx) as Hbx.
  destruct (emitted_broken i (broke i s) _ Hbx eq_refl) as (x' & Hx' & Hb' & _).
  split_and!.
  - by rewrite emitted_length, broke_length.
  - eauto.
  - intros Hq. rewrite emitted_empty by done. split; [done|].
    destruct (find_avail_exists (connections (broke i s)) i _ Hbx) as (k & y & Hf & _).
    { unfold avail. simpl. by rewrite orb_true_r. }
    exists (k, y). exact Hf.
  - intros w q Hq.
    rewrite (emitted_serves i (broke i s) _ w q Hbx); [|by right|done].
    split; [done|]. simpl. apply settle_pending.
    rewrite list_lookup_fmap.
    rewrite (wf_queue _ (proj1 Hwf) w) by (rewrite Hq; by left). done.
Qed.

Lemma link_loss_keeps_connection_witness :
  ∃ s', step (mkState [1] [mkPoolConnection 0 false false 1] 1 1
                [Holding 0; AwaitRelease] [Push 1]) (ServerBroken 0) = Some s' ∧
    length (connections s') = 1 ∧
    (∃ x, connections s' !! 0 = Some x ∧ broken x = true) ∧
    ([1] = [] → queue s' = [] ∧ is_Some (find_avail (connections s'))) ∧
    (∀ w q, [1] = w :: q →
       queue s' = q ∧ tasks s' !! w = Some (Resolved 0)).
Proof.
  exact (link_loss_keeps_connection (Some 1)
           [GetConnection; Settle 0 None; GetConnection]
           (mkState [1] [mkPoolConnection 0 false false 1] 1 1
              [Holding 0; AwaitRelease] [Push 1])
           0 eq_refl (le_n 1)).
Defined.

(** After a [release()] with nobody waiting, the next
    [getConnection()] neither waits nor makes the pool grow: it takes
    a connection already in the pool, the released one or one before
    it. *)
Theorem release_then_acquire_reuses (config : option nat) (evs : list Event)
    (s : State) (c : nat) (t : Task) (i : nat) :
  run (RedisConnectionPool config) evs = Some s →
  tasks s !! c = Some t → in_hand t = Some i → queue s = [] →
  ∃ s', run s [Release c; GetConnection] = Some s' ∧
    queue s' = [] ∧
    length (connections s') = length (connections s) ∧
    ∃ k, k ≤ i ∧
      (tasks s' !! length (tasks s) = Some (Holding k) ∨
       tasks s' !! length (tasks s) = Some (AwaitRepair k)).
Proof.
  intros Hwf%wf_reachable Hc Ht Hq.
  assert (i < length (connections s)) as Hi.
  { pose proof (in_hand_slot_of _ _ Ht) as [Hs _].
    exact (wf_slots _ (proj1 Hwf) c t i Hc Hs). }
  destruct (lookup_lt_is_Some_2 _ _ Hi) as [x Hx].
  set (s1 := upd_trace (λ tr, tr ++ [Emit i])
               (upd_connections (alter (set_free true) i)
                  (upd_tasks (<[c := Released i]>) s))).
  assert (connections s1 !! i = Some (set_free true x)) as Hx1
    by (by apply lookup_alter_Some).
  destruct (find_avail_exists (connections s1) i _ Hx1 eq_refl)
    as (k & y & Hfind & Hk).
  destruct (find_avail_Some _ _ _ Hfind) as [Hy _].
  eexists. split.
  { cbn [run]. rewrite (step_Release s c t i Hc Ht) by by rewrite Hx.
    cbn [mbind option_bind]. rewrite emitted_empty by done. fold s1.
    rewrite (step_GetConnection_old _ _ _ Hfind). done. }
  split_and!.
  - simpl. by rewrite got_queue.
  - simpl. rewrite got_length. subst s1. simpl. by rewrite length_alter.
  - exists k. split; [done|]. simpl. rewrite got_tasks.
    assert (length (tasks s) = length (tasks s1)) as ->
      by (subst s1; simpl; by rewrite length_insert).
    rewrite lookup_app_r, Nat.sub_diag by done. simpl.
    unfold got_task. rewrite Hy. destruct (broken y); auto.
Qed.

Lemma release_then_acquire_reuses_witness :
  ∃ s', run (mkState [] [mkPoolConnection 0 false false 1] 1 2 [Holding 0] [])
          [Release 0; GetConnection] = Some s' ∧
    queue s' = [] ∧
    length (connections s') = 1 ∧
    ∃ k, k ≤ 0 ∧
      (tasks s' !! 1 = Some (Holding k) ∨ tasks s' !! 1 = Some (AwaitRepair k)).
Proof.
  exact (release_then_acquire_reuses (Some 2) [GetConnection; Settle 0 None]
           (mkState [] [mkPoolConnection 0 false false 1] 1 2 [Holding 0] [])
           0 (Holding 0) 0 eq_refl eq_refl eq_refl eq_refl).
Defined.

(** [emptyQueue()] on an empty queue changes nothing, and a second
    [emptyQueue()] right after a first changes nothing either. *)
Theorem emptyQueue_idempotent (s : State) :
  (queue s = [] → step s EmptyQueue = Some s) ∧
  run s [EmptyQueue; EmptyQueue] = run s [EmptyQueue].
Proof.
  assert (∀ s0, queue s0 = [] → rejected_all s0 = s0) as Hidle.
  { intros [q cs sz lim ts tr]. simpl. intros ->. unfold rejected_all. simpl.
    by rewrite app_nil_r. }
  split.
  - intros Hq. by rewrite step_EmptyQueue, Hidle.
  - cbn [run]. rewrite !step_EmptyQueue. cbn [mbind option_bind].
    rewrite step_EmptyQueue. cbn [mbind option_bind]. by rewrite Hidle.
Qed.

(** [backToDefaultDb()] treats a failure as [execute()] does: it
    rejects with the same error, after setting [broken] and emitting
    "release" when the error is a ConnectionError, and without
    touching the pool otherwise; a result is passed on untouched. *)
Theorem backToDefaultDb_error_discipline (s : State) (i : nat) (x : PoolConnection) :
  connections s !! i = Some x →
  (∀ r, backToDefaultDb i (inr r) s = Some (Return (Reply r), s)) ∧
  ∀ e, ∃ s', backToDefaultDb i (inl e) s = Some (Throw e, s') ∧
    (is_ConnectionError e = true →
       (∃ x', connections s' !! i = Some x' ∧ broken x' = true) ∧
       ∃ tr, trace s' = trace s ++ Emit i :: tr) ∧
    (is_ConnectionError e = false → s' = s).
Proof.
  intros Hx. split; [done|]. intros e. eexists. split.
  { apply (execute_error_eq i e s). by rewrite Hx. }
  destruct (is_ConnectionError e); split; try done. intros _. split.
  - destruct (emitted_broken i (broke i s) _ (broke_lookup i s x Hx) eq_refl)
      as (x' & ? & ? & _). eauto.
  - apply (emitted_trace i (broke i s)).
Qed.

Lemma backToDefaultDb_error_discipline_witness :
  (∀ r, backToDefaultDb 0 (inr r)
          (mkState [] [mkPoolConnection 0 false false 1] 1 1 [Holding 0] [])
        = Some (Return (Reply r),
                mkState [] [mkPoolConnection 0 false false 1] 1 1 [Holding 0] [])) ∧
  ∀ e, ∃ s', backToDefaultDb 0 (inl e)
               (mkState [] [mkPoolConnection 0 false false 1] 1 1 [Holding 0] [])
             = Some (Throw e, s') ∧
    (is_ConnectionError e = true →
       (∃ x', connections s' !! 0 = Some x' ∧ broken x' = true) ∧
       ∃ tr, trace s' = [] ++ Emit 0 :: tr) ∧
    (is_ConnectionError e = false →
       s' = mkState [] [mkPoolConnection 0 false false 1] 1 1 [Holding 0] []).
Proof.
  exact (backToDefaultDb_error_discipline
           (mkState [] [mkPoolConnection 0 false false 1] 1 1 [Holding 0] [])
           0 (mkPoolConnection 0 false false 1) eq_refl).
Defined.

End PoolMoreProps.
